(** * SillyTavern-Roadway: a shallow embedding of [src/src/index.ts]

    The bullet extractor [extractBulletPoints] (a JavaScript regular
    expression pipeline), the generation flow [generateRoadway] (an
    asynchronous function with a shared in-flight [Set]) and the inline
    edit handler of [attachRoadwayOptionHandlers]. *)

From Stdlib Require Import String Ascii List Bool Arith NArith ZArith Lia.
Import ListNotations.
Open Scope list_scope.

(* ------------------------------------------------------------------ *)
(** ** JavaScript strings *)

(** A JavaScript string is a sequence of UTF-16 code units. *)
Definition jsstr := list N.

(** String literals of this file are written in ASCII and converted. *)
Fixpoint js (s : string) : jsstr :=
  match s with
  | EmptyString => []
  | String c t => N_of_ascii c :: js t
  end.

(** ECMAScript LineTerminator: LF, CR, LS, PS. *)
Definition is_lt (c : N) : bool :=
  ((c =? 10) || (c =? 13) || (c =? 8232) || (c =? 8233))%N.

(** ECMAScript WhiteSpace or LineTerminator: the set of [\s] in a regular
    expression and of the characters removed by [String.prototype.trim].
    WhiteSpace is TAB, VT, FF, ZWNBSP (U+FEFF) and the Zs category:
    U+0020, U+00A0, U+1680, U+2000..U+200A, U+202F, U+205F, U+3000. *)
Definition is_ws (c : N) : bool :=
  ((c =? 9) || (c =? 11) || (c =? 12) || (c =? 32) || (c =? 160)
   || (c =? 5760) || ((8192 <=? c) && (c <=? 8202)) || (c =? 8239)
   || (c =? 8287) || (c =? 12288) || (c =? 65279))%N || is_lt c.

(** [\d] *)
Definition is_digit (c : N) : bool := ((48 <=? c) && (c <=? 57))%N.

(** Canonicalize of a non-unicode [i] regular expression (ES2023 22.2.2.7.3):
    the upper case of the code unit.  Only ASCII letters are folded here; a
    non-ASCII code unit is never mapped to an ASCII one by Canonicalize, so
    against the ASCII patterns of this file the two agree. *)
Definition canon (c : N) : N :=
  if ((97 <=? c) && (c <=? 122))%N then (c - 32)%N else c.

Fixpoint drop_while (f : N -> bool) (s : jsstr) : jsstr :=
  match s with
  | c :: t => if f c then drop_while f t else s
  | [] => []
  end.

(** [String.prototype.trim] *)
Definition drop_ws (s : jsstr) : jsstr := drop_while is_ws s.

Definition trim (s : jsstr) : jsstr := rev (drop_ws (rev (drop_ws s))).

(* ------------------------------------------------------------------ *)
(** ** Regular expressions (the subset used by [extractBulletPoints])

    A backtracking matcher in continuation-passing style following the
    ECMAScript pattern semantics.  Quantifiers in the source only apply to
    single-character classes ([\d+], [\s+], the dot star and the lazy star
    of [[\s\S]]), so a repetition is over a class; groups are only used for
    grouping (the capture group around the dot star is never read: [match]
    with [g] returns whole matches). *)

Module Regex.

Inductive cls : Type :=
  | CDigit            (* \d *)
  | CSpace            (* \s *)
  | CNotSpace         (* \S *)
  | CDot              (* .  (no s flag) *)
  | CAll              (* [\s\S] *)
  | CLit (c : N).     (* a literal code unit *)

Inductive re : Type :=
  | REmpty
  | RChar (c : cls)
  | RRep (c : cls) (min : nat) (greedy : bool)   (* c{min,} or c{min,}? *)
  | RSeq (r1 r2 : re)
  | RAlt (r1 r2 : re)
  | RAhead (c : cls)                              (* (?=c) *)
  | RBol                                          (* ^ *)
  | REol.                                         (* $ *)

Record flags := mkFlags { ignoreCase : bool; multiline : bool }.

Definition cls_match (fl : flags) (k : cls) (ch : N) : bool :=
  match k with
  | CDigit => is_digit ch
  | CSpace => is_ws ch
  | CNotSpace => negb (is_ws ch)
  | CDot => negb (is_lt ch)
  | CAll => true
  | CLit c => if ignoreCase fl then (canon ch =? canon c)%N else (ch =? c)%N
  end.

(** The matcher state is the previous code unit ([None] at the start of
    the input, which [^] needs) and the rest of the input. *)
Definition cont := option N -> jsstr -> option jsstr.

Definition bol (fl : flags) (p : option N) : bool :=
  match p with
  | None => true
  | Some c => multiline fl && is_lt c
  end.

Definition eol (fl : flags) (s : jsstr) : bool :=
  match s with
  | [] => true
  | c :: _ => multiline fl && is_lt c
  end.

(** RepeatMatcher, greedy: one more iteration first, then the continuation. *)
Fixpoint rep_greedy (fl : flags) (k : cls) (min : nat) (p : option N)
         (s : jsstr) (kc : cont) : option jsstr :=
  match s with
  | ch :: t =>
      if cls_match fl k ch then
        match rep_greedy fl k (pred min) (Some ch) t kc with
        | Some r => Some r
        | None => if min =? 0 then kc p s else None
        end
      else if min =? 0 then kc p s else None
  | [] => if min =? 0 then kc p s else None
  end.

(** RepeatMatcher, lazy: the continuation first, then one more iteration. *)
Fixpoint rep_lazy (fl : flags) (k : cls) (min : nat) (p : option N)
         (s : jsstr) (kc : cont) : option jsstr :=
  let more :=
    match s with
    | ch :: t => if cls_match fl k ch then rep_lazy fl k (pred min) (Some ch) t kc
                 else None
    | [] => None
    end in
  if min =? 0 then
    match kc p s with
    | Some r => Some r
    | None => more
    end
  else more.

Fixpoint mt (fl : flags) (r : re) (p : option N) (s : jsstr) (kc : cont)
  : option jsstr :=
  match r with
  | REmpty => kc p s
  | RChar k =>
      match s with
      | ch :: t => if cls_match fl k ch then kc (Some ch) t else None
      | [] => None
      end
  | RRep k min true => rep_greedy fl k min p s kc
  | RRep k min false => rep_lazy fl k min p s kc
  | RSeq r1 r2 => mt fl r1 p s (fun p' s' => mt fl r2 p' s' kc)
  | RAlt r1 r2 =>
      match mt fl r1 p s kc with
      | Some x => Some x
      | None => mt fl r2 p s kc
      end
  | RAhead k =>
      match s with
      | ch :: _ => if cls_match fl k ch then kc p s else None
      | [] => None
      end
  | RBol => if bol fl p then kc p s else None
  | REol => if eol fl s then kc p s else None
  end.

(** The final continuation: the match succeeds, returning the rest. *)
Definition kfin : cont := fun _ s => Some s.

(** [String.prototype.match] with the [g] flag ([|| []] folded in: [null]
    becomes the empty list).  The scan position advances one code unit at
    a time; after a match the [skip] remaining code units of the match are
    passed over ([lastIndex] is set to the end of the match, or one past it
    for an empty match). *)
Fixpoint match_all (fl : flags) (r : re) (p : option N) (skip : nat)
         (s : jsstr) : list jsstr :=
  match s with
  | [] =>
      match skip with
      | O => match mt fl r p [] kfin with Some _ => [[]] | None => [] end
      | S _ => []
      end
  | c :: t =>
      match skip with
      | S k => match_all fl r (Some c) k t
      | O =>
          match mt fl r p s kfin with
          | Some s' =>
              let n := length s - length s' in
              firstn n s :: match_all fl r (Some c) (pred n) t
          | None => match_all fl r (Some c) 0 t
          end
      end
  end.

(** [String.prototype.replace] with the [g] flag and the replacement [''].
    Matched code units are dropped, the others kept. *)
Fixpoint replace_all (fl : flags) (r : re) (p : option N) (skip : nat)
         (s : jsstr) : jsstr :=
  match s with
  | [] => []
  | c :: t =>
      match skip with
      | S k => replace_all fl r (Some c) k t
      | O =>
          match mt fl r p s kfin with
          | Some s' =>
              match length s - length s' with
              | O => c :: replace_all fl r (Some c) 0 t
              | S k => replace_all fl r (Some c) k t
              end
          | None => c :: replace_all fl r (Some c) 0 t
          end
      end
  end.

(** [String.prototype.replace] without [g] and with the replacement [''].
    The first match is removed. *)
Fixpoint replace_first (fl : flags) (r : re) (p : option N) (s : jsstr)
  : jsstr :=
  match mt fl r p s kfin with
  | Some s' => s'
  | None =>
      match s with
      | [] => []
      | c :: t => c :: replace_first fl r (Some c) t
      end
  end.

(** A literal sequence of code units. *)
Fixpoint lits (s : jsstr) : re :=
  match s with
  | [] => REmpty
  | c :: t => RSeq (RChar (CLit c)) (lits t)
  end.

End Regex.

Import Regex.

(* ------------------------------------------------------------------ *)
(** ** [extractBulletPoints] (index.ts 530-537) *)

Definition think_open : jsstr := js "<think>".
Definition think_close : jsstr := js "</think>".

(** [/<think>[\s\S]*?<\/think>/gi] *)
Definition think_re : re :=
  RSeq (lits think_open) (RSeq (RRep CAll 0 false) (lits think_close)).
Definition fl_gi : flags := mkFlags true false.

(** [(?:\d+\.(?:\s+|(?=\S))|-\s+)] *)
Definition marker_alt : re :=
  RAlt (RSeq (RRep CDigit 1 true)
             (RSeq (RChar (CLit 46)) (RAlt (RRep CSpace 1 true) (RAhead CNotSpace))))
       (RSeq (RChar (CLit 45)) (RRep CSpace 1 true)).

(** [/^(?:\d+\.(?:\s+|(?=\S))|-\s+)(.* )$/gm] (the space before the
    closing parenthesis is not in the source; it keeps this comment open) *)
Definition line_re : re := RSeq RBol (RSeq marker_alt (RSeq (RRep CDot 0 true) REol)).
Definition fl_gm : flags := mkFlags false true.

(** [/^(?:\d+\.(?:\s+|(?=\S))|-\s+)/] *)
Definition marker_re : re := RSeq RBol marker_alt.
Definition fl_none : flags := mkFlags false false.

(** [text.replace(/<think>[\s\S]*?<\/think>/gi, '')] *)
Definition strip_think (text : jsstr) : jsstr := replace_all fl_gi think_re None 0 text.

(** [cleanedText.match(...) || []] followed by the [map] that strips the
    marker and trims. *)
Definition extract_lines (cleanedText : jsstr) : list jsstr :=
  map (fun line => trim (replace_first fl_none marker_re None line))
      (match_all fl_gm line_re None 0 cleanedText).

Definition extractBulletPoints (text : jsstr) : list jsstr :=
  extract_lines (strip_think text).

(* ------------------------------------------------------------------ *)
(** ** Direct characterisations used by the proofs

    The three regular expressions of [extractBulletPoints] evaluated by
    hand; the lemmas [mt_think], [mt_line_re] and [replace_first_marker]
    below prove that the backtracking matcher computes exactly these. *)

(** The previous code unit after consuming [a]. *)
Fixpoint lastp (p : option N) (a : jsstr) : option N :=
  match a with
  | [] => p
  | c :: t => lastp (Some c) t
  end.

(** [pat] is a prefix of [s] up to ASCII case. *)
Fixpoint prefix_ci (pat s : jsstr) : bool :=
  match pat, s with
  | [], _ => true
  | q :: pat', c :: s' => (canon c =? canon q)%N && prefix_ci pat' s'
  | _ :: _, [] => false
  end.

(** [pat] occurs in [s] up to ASCII case. *)
Fixpoint occurs_ci (pat s : jsstr) : bool :=
  prefix_ci pat s || match s with [] => false | _ :: t => occurs_ci pat t end.

(** The lazy [[\s\S]*?] followed by the closing delimiter: the rest after
    the first closing delimiter. *)
Fixpoint find_close (s : jsstr) : option jsstr :=
  if prefix_ci think_close s then Some (skipn 8 s)
  else match s with [] => None | _ :: t => find_close t end.

Definition think_at (s : jsstr) : option jsstr :=
  if prefix_ci think_open s then find_close (skipn 7 s) else None.

(** The marker alternative at the start of [s]: the rest after it. *)
Definition marker_end (s : jsstr) : option jsstr :=
  match s with
  | c :: t =>
      if is_digit c then
        match drop_while is_digit t with
        | d :: r =>
            if (d =? 46)%N then
              match r with [] => None | _ :: _ => Some (drop_ws r) end
            else None
        | [] => None
        end
      else if (c =? 45)%N then
        match t with
        | d :: _ => if is_ws d then Some (drop_ws t) else None
        | [] => None
        end
      else None
  | [] => None
  end.

Definition drop_dot (s : jsstr) : jsstr := drop_while (fun c => negb (is_lt c)) s.

(** The text either ends or goes on with a [<] (up to case). *)
Definition opens_or_end (y : jsstr) : bool :=
  match y with [] => true | c :: _ => (canon c =? 60)%N end.

(** A reasoning block as it appears in a text: the text before it, the
    opening delimiter (any letter case), the content, the closing
    delimiter (any letter case). *)
Record think_block := mkBlock {
  blk_pre : jsstr; blk_open : jsstr; blk_mid : jsstr; blk_close : jsstr }.

Definition block_text (b : think_block) : jsstr :=
  blk_pre b ++ blk_open b ++ blk_mid b ++ blk_close b.

(** The pairing of the non-greedy pattern: no opening delimiter before the
    block's own, no closing delimiter inside its content. *)
Definition block_ok (b : think_block) : Prop :=
  occurs_ci think_open (blk_pre b) = false /\
  map canon (blk_open b) = map canon think_open /\
  occurs_ci think_close (blk_mid b) = false /\
  map canon (blk_close b) = map canon think_close.

(** No complete reasoning block starts anywhere in [s]: no opening
    delimiter is followed, later in [s], by a closing delimiter. *)
Fixpoint no_pair (s : jsstr) : bool :=
  match s with
  | [] => true
  | _ :: t => match think_at s with Some _ => false | None => true end && no_pair t
  end.

(** ** Display text of the actions (index.ts 401-402)

    [actions.map((action, index) => `${index + 1}. ${action}`).join('\n')] *)

Definition digit_char (d : nat) : N := (48 + N.of_nat d)%N.

(** Decimal digits of a number ([Number.prototype.toString] on a
    non-negative integer). *)
Fixpoint dec_aux (fuel n : nat) (acc : jsstr) : jsstr :=
  match fuel with
  | O => acc
  | S f =>
      let acc' := digit_char (n mod 10) :: acc in
      if n <? 10 then acc' else dec_aux f (n / 10) acc'
  end.

Definition dec (n : nat) : jsstr := dec_aux (S n) n [].

Fixpoint number_from (i : nat) (actions : list jsstr) : list jsstr :=
  match actions with
  | [] => []
  | a :: t => (dec i ++ js ". " ++ a) :: number_from (S i) t
  end.

(** [join('\n')]; the code unit 10 is the line feed. *)
Fixpoint join_lines (l : list jsstr) : jsstr :=
  match l with
  | [] => []
  | [x] => x
  | x :: t => x ++ [10%N] ++ join_lines t
  end.

Definition render_actions (actions : list jsstr) : jsstr :=
  join_lines (number_from 1 actions).

(** An action that is non-empty, on one line, without whitespace at either
    end and without a reasoning-block delimiter. *)
Definition plain_action (a : jsstr) : Prop :=
  a <> [] /\ Forall (fun c => is_lt c = false) a /\
  is_ws (hd 0%N a) = false /\ is_ws (last a 0%N) = false /\
  occurs_ci think_open a = false /\ occurs_ci think_close a = false.

(* ================================================================== *)
(** * The generation flow [generateRoadway] (index.ts 331-446)

    The flow is an async function: it runs synchronously up to each
    [await] and resumes when the awaited promise settles.  A world holds the
    shared state (settings, chat, the in-flight set [pendingRequests], the
    spinner class, the user-visible echoes, the console log, the host calls
    dispatched and the [saveChat] calls) and the program counter of every
    flow started so far, at the [await] it is suspended on.  [Call id] starts
    a flow ([generateRoadway(id)]); [Resume i r] settles the promise flow [i]
    waits on with the reply [r] and runs the flow to its next [await]. *)

Fixpoint str_eqb (a b : jsstr) : bool :=
  match a, b with
  | [], [] => true
  | x :: a', y :: b' => (x =? y)%N && str_eqb a' b'
  | _, _ => false
  end.

Definition is_nil {A} (l : list A) : bool := match l with [] => true | _ => false end.

Inductive Strategy := StrategyBullet | StrategyNone.

(** [interface PromptPreset] *)
Record PromptPreset := mkPreset {
  content : jsstr;
  extractionStrategy : Strategy;
  impersonate : option jsstr }.

(** The part of [ExtensionSettings] the flow reads. *)
Record Settings := mkSettings {
  profileId : jsstr;
  promptPreset : jsstr;
  promptPresets : list (jsstr * PromptPreset) }.

(** [settings.promptPresets[name]]: [None] is [undefined]. *)
Fixpoint lookup_preset (name : jsstr) (l : list (jsstr * PromptPreset))
  : option PromptPreset :=
  match l with
  | [] => None
  | (k, v) :: t => if str_eqb k name then Some v else lookup_preset name t
  end.

(** The rendered [mes] of a chat message: plain text for ordinary
    messages; for an annotation, [formatResponse] gives one row per option
    when [options?.length] is non-zero, else a [pre] holding the text. *)
Inductive Markup := Text (s : jsstr) | Pre (s : jsstr) | Rows (opts : list jsstr).

Definition formatResponse (response : jsstr) (options : option (list jsstr)) : Markup :=
  match options with
  | Some ((_ :: _) as o) => Rows o
  | _ => Pre response
  end.

(** A JS array of strings; [None] is a hole. *)
Definition arr := list (option jsstr).

(** A chat message with the three [extra] keys of [KEYS.EXTRA]. *)
Record Message := mkMessage {
  mes : Markup;
  target : option nat;            (* extra.roadway_target_chat *)
  raw_content : option jsstr;     (* extra.roadway_raw_content *)
  options : option arr }.         (* extra.roadway_options *)

(** Replace the element at index [k] (in range). *)
Fixpoint set_at {A} (k : nat) (x : A) (l : list A) : list A :=
  match l, k with
  | [], _ => []
  | _ :: t, O => x :: t
  | y :: t, S k' => y :: set_at k' x t
  end.

(** [context.chat.find((mes) => mes.extra?.[TARGET] === id)], as the
    index of the first such message. *)
Fixpoint find_target_at (id k : nat) (chat : list Message) : option nat :=
  match chat with
  | [] => None
  | m :: t =>
      match target m with
      | Some j => if j =? id then Some k else find_target_at id (S k) t
      | None => find_target_at id (S k) t
      end
  end.

Definition find_target (id : nat) (chat : list Message) : option nat :=
  find_target_at id 0 chat.

(** index.ts 401-431: [innerText], then update the existing annotation in
    place or push a new one. *)
Definition upsert (id : nat) (resp : jsstr) (strategy : option Strategy)
    (actions : list jsstr) (chat : list Message) : list Message :=
  let innerText := match actions with [] => resp | _ => render_actions actions end in
  let markup := formatResponse innerText
                  (match strategy with Some StrategyBullet => Some actions | _ => None end) in
  match find_target id chat with
  | Some k =>
      match nth_error chat k with
      | Some m => set_at k (mkMessage markup (target m) (Some resp) (Some (map Some actions))) chat
      | None => chat
      end
  | None => chat ++ [mkMessage markup (Some id) (Some innerText) (Some (map Some actions))]
  end.

Inductive Level := EchoError | EchoWarning.

(** The messages passed to [st_echo]. *)
Inductive Msg := MsgNoProfile | MsgNoPrompt | MsgInProgress | MsgNoBullets | MsgCaught.

(** Where a flow is suspended. *)
Inductive PC :=
| PPreEcho             (* await st_echo('error', ...) before the try *)
| PDupEcho             (* await st_echo('warning', ...) of the in-flight guard *)
| PBuild               (* await buildPrompt(...) *)
| PSend                (* await sendRequest(...) *)
| PEmptyEcho (resp : jsstr)  (* await st_echo('warning', ...) on no bullets *)
| PSave                (* await context.saveChat() *)
| PCatchEcho           (* await st_echo('error', ...) in the catch *)
| Done.

Inductive Reply := Resolve (resp : jsstr) | Reject.

Inductive Event := Call (id : nat) | Resume (i : nat) (r : Reply).

Record World := mkWorld {
  settings : Settings;
  chat : list Message;
  pendingRequests : list nat;
  spinning : bool;
  echoes : list (Level * Msg);
  errors_logged : nat;
  prompts_built : list nat;
  requests_sent : list nat;
  saves : nat;
  flows : list (nat * PC) }.

Definition set_add (id : nat) (s : list nat) : list nat :=
  if existsb (Nat.eqb id) s then s else s ++ [id].

Definition set_delete (id : nat) (s : list nat) : list nat :=
  filter (fun j => negb (j =? id)) s.

Definition echo (lv : Level) (m : Msg) (w : World) : World :=
  {| settings := settings w; chat := chat w; pendingRequests := pendingRequests w;
     spinning := spinning w; echoes := echoes w ++ [(lv, m)];
     errors_logged := errors_logged w; prompts_built := prompts_built w;
     requests_sent := requests_sent w; saves := saves w; flows := flows w |}.

(** [console.error(error)] *)
Definition log_error (w : World) : World :=
  {| settings := settings w; chat := chat w; pendingRequests := pendingRequests w;
     spinning := spinning w; echoes := echoes w;
     errors_logged := S (errors_logged w); prompts_built := prompts_built w;
     requests_sent := requests_sent w; saves := saves w; flows := flows w |}.

(** [pendingRequests.add(id)], [addClass('spinning')] and the call of
    [buildPrompt]. *)
Definition enter (id : nat) (w : World) : World :=
  {| settings := settings w; chat := chat w;
     pendingRequests := set_add id (pendingRequests w);
     spinning := true; echoes := echoes w;
     errors_logged := errors_logged w; prompts_built := prompts_built w ++ [id];
     requests_sent := requests_sent w; saves := saves w; flows := flows w |}.

(** The call of [sendRequest]. *)
Definition send (id : nat) (w : World) : World :=
  {| settings := settings w; chat := chat w; pendingRequests := pendingRequests w;
     spinning := spinning w; echoes := echoes w;
     errors_logged := errors_logged w; prompts_built := prompts_built w;
     requests_sent := requests_sent w ++ [id]; saves := saves w; flows := flows w |}.

(** The upsert and the call of [saveChat]. *)
Definition store (id : nat) (resp : jsstr) (strategy : option Strategy)
    (actions : list jsstr) (w : World) : World :=
  {| settings := settings w; chat := upsert id resp strategy actions (chat w);
     pendingRequests := pendingRequests w;
     spinning := spinning w; echoes := echoes w;
     errors_logged := errors_logged w; prompts_built := prompts_built w;
     requests_sent := requests_sent w; saves := S (saves w); flows := flows w |}.

(** The [finally] block. *)
Definition cleanup (id : nat) (w : World) : World :=
  {| settings := settings w; chat := chat w;
     pendingRequests := set_delete id (pendingRequests w);
     spinning := false; echoes := echoes w;
     errors_logged := errors_logged w; prompts_built := prompts_built w;
     requests_sent := requests_sent w; saves := saves w; flows := flows w |}.

Definition set_flows (fs : list (nat * PC)) (w : World) : World :=
  {| settings := settings w; chat := chat w; pendingRequests := pendingRequests w;
     spinning := spinning w; echoes := echoes w;
     errors_logged := errors_logged w; prompts_built := prompts_built w;
     requests_sent := requests_sent w; saves := saves w; flows := fs |}.

(** The [catch] block up to its [await]. *)
Definition catch (w : World) : World * PC :=
  (echo EchoError MsgCaught (log_error w), PCatchEcho).

(** [generateRoadway(id)] up to its first [await]. *)
Definition start (id : nat) (w : World) : World * PC :=
  if is_nil (profileId (settings w)) then (echo EchoError MsgNoProfile w, PPreEcho)
  else if is_nil (promptPreset (settings w)) then (echo EchoError MsgNoPrompt w, PPreEcho)
  else if length (chat w) <=? id then (w, Done)
  else if existsb (Nat.eqb id) (pendingRequests w) then
    (echo EchoWarning MsgInProgress w, PDupEcho)
  else (enter id w, PBuild).

Definition current_preset (w : World) : option PromptPreset :=
  lookup_preset (promptPreset (settings w)) (promptPresets (settings w)).

(** The flow for [id], suspended at [pc], resumed with [r], up to its next
    [await]. *)
Definition resume (id : nat) (pc : PC) (r : Reply) (w : World) : World * PC :=
  match pc, r with
  | PPreEcho, _ => (w, Done)
  | PDupEcho, Resolve _ => (cleanup id w, Done)
  | PBuild, Resolve _ =>
      (* settings.promptPresets[settings.promptPreset].content *)
      match current_preset w with
      | Some _ => (send id w, PSend)
      | None => catch w
      end
  | PSend, Resolve resp =>
      let strategy := option_map extractionStrategy (current_preset w) in
      match strategy with
      | Some StrategyBullet =>
          match extractBulletPoints resp with
          | [] => (echo EchoWarning MsgNoBullets w, PEmptyEcho resp)
          | actions => (store id resp strategy actions w, PSave)
          end
      | _ => (store id resp strategy [] w, PSave)
      end
  | PEmptyEcho resp, Resolve _ => (store id resp (Some StrategyBullet) [] w, PSave)
  | PSave, Resolve _ => (cleanup id w, Done)
  | (PDupEcho | PBuild | PSend | PEmptyEcho _ | PSave), Reject => catch w
  | PCatchEcho, _ => (cleanup id w, Done)
  | Done, _ => (w, Done)
  end.

Definition step (w : World) (e : Event) : World :=
  match e with
  | Call id =>
      let (w', pc) := start id w in set_flows (flows w' ++ [(id, pc)]) w'
  | Resume i r =>
      match nth_error (flows w) i with
      | Some (id, pc) =>
          let (w', pc') := resume id pc r w in set_flows (set_at i (id, pc') (flows w')) w'
      | None => w
      end
  end.

Definition run (w : World) (es : list Event) : World := fold_left step es w.

(** The flow passed the in-flight guard (or is in the catch block). *)
Definition passed (pc : PC) : bool :=
  match pc with
  | PBuild | PSend | PEmptyEcho _ | PSave | PCatchEcho => true
  | _ => false
  end.

(* ================================================================== *)
(** * Editing an action (index.ts 710-751) *)

(** [arr[index] = v]: past the end the array grows, with holes. *)
Definition js_set (l : arr) (idx : nat) (v : jsstr) : arr :=
  if idx <? length l then set_at idx (Some v) l
  else l ++ repeat None (idx - length l) ++ [Some v].

Definition set_chat_saves (c : list Message) (n : nat) (w : World) : World :=
  {| settings := settings w; chat := c; pendingRequests := pendingRequests w;
     spinning := spinning w; echoes := echoes w;
     errors_logged := errors_logged w; prompts_built := prompts_built w;
     requests_sent := requests_sent w; saves := n; flows := flows w |}.

(** The blur handler of the edit textarea of the option at DOM position
    [idx] of annotation message [roadwayMessageId]. *)
Definition on_blur (w : World) (roadwayMessageId idx : nat) (newText : jsstr) : World :=
  match nth_error (chat w) roadwayMessageId with
  | Some m =>
      match options m with
      | Some opts =>
          let m' := mkMessage (mes m) (target m) (raw_content m) (Some (js_set opts idx newText)) in
          set_chat_saves (set_at roadwayMessageId m' (chat w)) (S (saves w)) w
      | None => w
      end
  | None => w
  end.

Inductive KeyName := KeyEnter | KeyOther.

Record KeyEvent := mkKeyEvent { key : KeyName; shiftKey : bool }.

(** What the textarea does with a key when its default is not prevented:
    Enter inserts a line break (caret at the end); other keys are outside
    this model. *)
Definition browser_default (k : KeyEvent) (draft : jsstr) : jsstr :=
  match key k with KeyEnter => draft ++ [10%N] | KeyOther => draft end.

(** The keydown handler: Enter without Shift prevents the default and
    triggers the blur handler; anything else keeps the default. *)
Definition on_keydown (w : World) (roadwayMessageId idx : nat) (k : KeyEvent)
    (draft : jsstr) : jsstr * World :=
  match key k, shiftKey k with
  | KeyEnter, false => (draft, on_blur w roadwayMessageId idx draft)
  | _, _ => (browser_default k draft, w)
  end.

(** Lines of a text that start with a bullet or numbered marker: a line
    beginning with digits and a period, or with a hyphen and a whitespace
    character (a line break included). *)
Definition marker_start (s : jsstr) : bool :=
  match s with
  | c :: t =>
      if is_digit c then
        match drop_while is_digit t with d :: _ => (d =? 46)%N | [] => false end
      else (c =? 45)%N && match t with d :: _ => is_ws d | [] => false end
  | [] => false
  end.

(** No line of [s] (the previous character being [p]) starts with a
    marker. *)
Fixpoint no_marker_lines (p : option N) (s : jsstr) : bool :=
  match s with
  | [] => true
  | c :: t =>
      negb (match p with None => true | Some d => is_lt d end && marker_start s)
      && no_marker_lines (Some c) t
  end.

(** The actions the flow stores for a response (index.ts 392-399). *)
Definition flow_actions (strategy : option Strategy) (resp : jsstr) : list jsstr :=
  match strategy with Some StrategyBullet => extractBulletPoints resp | _ => [] end.

(** A sample state: a connection profile and the default preset selected,
    six ordinary chat messages, nothing in flight. *)
Definition sample_settings : Settings :=
  mkSettings (js "profile-1") (js "default")
    [(js "default", mkPreset (js "List the options.") StrategyBullet None)].

Definition sample_message : Message := mkMessage (Text (js "Hello")) None None None.

Definition sample_world : World :=
  mkWorld sample_settings (repeat sample_message 6) [] false [] 0 [] [] 0 [].

(** A state with an annotation (message 3) for message 2 and one flow for
    message 2 suspended at [pc]. *)
Definition sample_annotation : Message :=
  mkMessage (Rows [js "Go north"; js "Wait"]) (Some 2) (Some (js "1. Go north"))
    (Some [Some (js "Go north"); Some (js "Wait")]).

Definition sample_world_at (pc : PC) : World :=
  mkWorld sample_settings
    (repeat sample_message 3 ++ [sample_annotation] ++ repeat sample_message 2)
    [2] true [] 0 [2] [2] 0 [(2, pc)].

(* ================================================================== *)
(** * Settings callbacks of the preset select (index.ts 122-159) *)

(** [DEFAULT_PROMPT] and [DEFAULT_IMPERSONATE] (index.ts 52-73). *)
Definition DEFAULT_PROMPT : jsstr := js "You are an AI brainstorming partner, helping to create immersive and surprising roleplaying experiences, **building upon the established context from our previous conversation.** Your task is to generate an *unpredictable* and *engaging* list of options for **{{user}}**, specifically tailored to their character, the world, and the current situation as established in our previous dialogue. These should be framed as possible actions that **{{user}}** *could* take.

Output ONLY a numbered list of possible actions. Each action should be a clear, actionable, concise, and *creative* sentence written in plain text suggesting an action **{{user}}** can perform in the game.

Prioritize *varied* actions that span multiple domains:

{Observation/Investigation; Dialogue/Persuasion; Stealth/Intrigue; Combat/Conflict; Crafting/Repair; Knowledge/Lore; Movement/Traversal; Deception/Manipulation; Performance/Entertainment; Technical/Mechanical}.

Avoid obvious or repetitive actions **that {{user}} has already explored or are contrary to the established character/world.** Push the boundaries of the situation. Challenge **{{user}}'s** expectations. Do not include greetings, farewells, polite thanks, or options that break character. Generate *exactly* 6 actions. The actions must be written in plain text.

Here are a few example actions to inspire creativity:

1. Attempt to communicate with the forest creatures to learn the location of hidden trails.
2. Bribe the corrupt city guard with a song and a dance.
3. Stage a fake ambush to draw out a hidden enemy.".

Definition DEFAULT_IMPERSONATE : jsstr := js "Your task this time is to write your response as if you were {{user}}, impersonating their style. Use {{user}}'s dialogue and actions so far as a guideline for how they would likely act. Don't ever write as {{char}}. Only talk and act as {{user}}. This is what {{user}}'s focus:

{{roadwaySelected}}".

(** [settings.promptPresets] as the callbacks see it: an object whose own
    keys may hold [undefined] ([None]).  Keys are plain own properties;
    names of [Object.prototype] members are outside this model. *)
Definition pobj := list (jsstr * option PromptPreset).

(** [o[k]] *)
Fixpoint pget (k : jsstr) (o : pobj) : option PromptPreset :=
  match o with
  | [] => None
  | (k', v) :: t => if str_eqb k' k then v else pget k t
  end.

(** [o[k] = v]: an existing key keeps its place, a new key goes last. *)
Fixpoint obj_set (k : jsstr) (v : option PromptPreset) (o : pobj) : pobj :=
  match o with
  | [] => [(k, v)]
  | (k', v') :: t => if str_eqb k' k then (k', v) :: t else (k', v') :: obj_set k v t
  end.

(** [delete o[k]] *)
Definition obj_delete (k : jsstr) (o : pobj) : pobj :=
  filter (fun kv => negb (str_eqb (fst kv) k)) o.

(** [create.onAfterCreate]: the new preset copies the selected one, with
    the defaults for what it lacks. *)
Definition onAfterCreate (promptPreset value : jsstr) (o : pobj) : pobj :=
  let currentPreset := pget promptPreset o in
  obj_set value
    (Some (mkPreset
       (match currentPreset with Some p => content p | None => DEFAULT_PROMPT end)
       (match currentPreset with Some p => extractionStrategy p | None => StrategyBullet end)
       (Some (match currentPreset with
              | Some p => match impersonate p with Some s => s | None => DEFAULT_IMPERSONATE end
              | None => DEFAULT_IMPERSONATE
              end))))
    o.

(** [rename.onAfterRename] *)
Definition onAfterRename (previousValue newValue : jsstr) (o : pobj) : pobj :=
  obj_delete previousValue (obj_set newValue (pget previousValue o) o).

(* ================================================================== *)
(** * The input-area button (index.ts 454-465) *)

(** The message the button generates for: the last one, or, when the last
    one is an annotation, the message it annotates; nothing on an empty
    chat. *)
Definition input_target (chat : list Message) : option nat :=
  match chat with
  | [] => None
  | _ =>
      let k := length chat - 1 in
      match nth_error chat k with
      | Some m => match target m with Some t => Some t | None => Some k end
      | None => None
      end
  end.

(** Number of annotations for [id] in the chat. *)
Definition target_is (id : nat) (m : Message) : bool :=
  match target m with Some j => j =? id | None => false end.

Definition count_target (id : nat) (chat : list Message) : nat :=
  length (filter (target_is id) chat).

(* ================================================================== *)
(** * Auto trigger (index.ts 767-795) *)

(** The settings and globals the two handlers read. *)
Record TriggerEnv := mkTriggerEnv {
  autoTrigger : bool;
  selected_group : bool }.   (* [selected_group] is truthy *)

Definition allowed_group_types (type : option jsstr) : bool :=
  match type with
  | Some s => str_eqb s (js "normal") || str_eqb s (js "continue") || str_eqb s (js "swipe")
  | None => false
  end.

(** [CHARACTER_MESSAGE_RENDERED]: the new [lastRenderedMessageId] and the
    message whose roadway button is clicked, if any. *)
Definition on_message_rendered (env : TriggerEnv) (lastRenderedMessageId : Z)
    (messageId : nat) (type : option jsstr) : Z * option nat :=
  (Z.of_nat messageId,
   if negb (autoTrigger env)
      || match type with Some s => str_eqb s (js "group_chat") | None => false end
      || selected_group env
   then None else Some messageId).

(** [GROUP_WRAPPER_FINISHED] *)
Definition on_group_wrapper_finished (env : TriggerEnv) (lastRenderedMessageId : Z)
    (type : option jsstr) : option nat :=
  if negb (autoTrigger env) || (lastRenderedMessageId =? -1)%Z
     || negb (allowed_group_types type)
  then None else Some (Z.to_nat lastRenderedMessageId).

(** A run of rendered messages: the final [lastRenderedMessageId] and the
    buttons clicked, in order. *)
Fixpoint render_seq (env : TriggerEnv) (last : Z) (msgs : list (nat * option jsstr))
  : Z * list nat :=
  match msgs with
  | [] => (last, [])
  | (mid, type) :: rest =>
      let (last', click) := on_message_rendered env last mid type in
      let (final, clicks) := render_seq env last' rest in
      (final, match click with Some c => c :: clicks | None => clicks end)
  end.

(* ================================================================== *)
(** * The impersonate button (index.ts 545-570, 571-676) *)

Inductive ImpOutcome :=
| ImpError                               (* st_echo('error', ...) *)
| ImpCommand (template : jsstr) (roadwaySelected : option jsstr)
    (* st_runCommandCallback('impersonate', ...) *)
| ImpProfile (profileId : jsstr) (template : jsstr) (roadwaySelected : option jsstr).
    (* generation through the impersonation profile *)

(** [options?.[index]]: a hole or an index past the end is [undefined]. *)
Definition option_at (opts : option arr) (index : nat) : option jsstr :=
  match opts with
  | Some l => match nth_error l index with Some v => v | None => None end
  | None => None
  end.

(** The click handler up to the call it makes: [None] when the message is
    not found (a silent [return]).  [impersonateApiProfile] is
    [settings.impersonateApi === 'profile']; [apiSelected] is
    [apiMap?.selected] being truthy for the impersonation profile. *)
Definition impersonate_click (presets : pobj) (promptPreset : jsstr)
    (message : option Message) (index : nat) (impersonateApiProfile : bool)
    (impersonateProfileId : jsstr) (apiSelected : bool) : option ImpOutcome :=
  match message with
  | None => None
  | Some m =>
      match pget promptPreset presets with
      | Some p =>
          match impersonate p with
          | Some ((_ :: _) as tpl) =>
              let sel := option_at (options m) index in
              if impersonateApiProfile then
                if is_nil impersonateProfileId then Some ImpError
                else if negb apiSelected then Some ImpError
                else Some (ImpProfile impersonateProfileId tpl sel)
              else Some (ImpCommand tpl sel)
          | _ => Some ImpError
          end
      | None => Some ImpError
      end
  end.

(* ================================================================== *)
(** * Proofs *)

Section Matcher.
Variable fl : flags.

Lemma mt_seq r1 r2 p s kc :
  mt fl (RSeq r1 r2) p s kc = mt fl r1 p s (fun p' s' => mt fl r2 p' s' kc).
Proof. reflexivity. Qed.

Lemma mt_alt r1 r2 p s kc :
  mt fl (RAlt r1 r2) p s kc =
  match mt fl r1 p s kc with Some x => Some x | None => mt fl r2 p s kc end.
Proof. reflexivity. Qed.

Lemma mt_bol p s kc : mt fl RBol p s kc = if bol fl p then kc p s else None.
Proof. reflexivity. Qed.

Lemma mt_greedy k min p s kc : mt fl (RRep k min true) p s kc = rep_greedy fl k min p s kc.
Proof. reflexivity. Qed.

Lemma rep_greedy_one k p c t kc :
  rep_greedy fl k 1 p (c :: t) kc =
  if cls_match fl k c then rep_greedy fl k 0 (Some c) t kc else None.
Proof.
  simpl. destruct (cls_match fl k c); [|reflexivity].
  destruct (rep_greedy fl k 0 (Some c) t kc); reflexivity.
Qed.

Lemma rep_greedy_max k p s kc G v :
  (forall p' x, kc p' x = G x) ->
  G (drop_while (cls_match fl k) s) = Some v ->
  rep_greedy fl k 0 p s kc = Some v.
Proof.
  intros Hk. revert p. induction s as [|c t IH]; intros p Hv; simpl in *.
  - rewrite Hk. exact Hv.
  - destruct (cls_match fl k c).
    + rewrite (IH (Some c) Hv). reflexivity.
    + rewrite Hk. exact Hv.
Qed.

Lemma rep_greedy_excl k p s kc G :
  (forall p' x, kc p' x = G x) ->
  (forall c x, cls_match fl k c = true -> G (c :: x) = None) ->
  rep_greedy fl k 0 p s kc = G (drop_while (cls_match fl k) s).
Proof.
  intros Hk Hex. revert p. induction s as [|c t IH]; intros p; simpl.
  - apply Hk.
  - destruct (cls_match fl k c) eqn:E.
    + rewrite (IH (Some c)). rewrite Hk, (Hex c t E).
      destruct (G (drop_while (cls_match fl k) t)); reflexivity.
    + apply Hk.
Qed.

Lemma rep_lazy_all p s kc :
  rep_lazy fl CAll 0 p s kc =
  match kc p s with
  | Some r => Some r
  | None => match s with [] => None | c :: t => rep_lazy fl CAll 0 (Some c) t kc end
  end.
Proof. destruct s; reflexivity. Qed.

Lemma mt_lits pat p s kc G :
  ignoreCase fl = true ->
  (forall p' x, kc p' x = G x) ->
  mt fl (lits pat) p s kc =
  if prefix_ci pat s then G (skipn (length pat) s) else None.
Proof.
  intros Hi Hk. revert p s. induction pat as [|q pat IH]; intros p s; simpl.
  - apply Hk.
  - destruct s as [|c s]; simpl; [reflexivity|].
    rewrite Hi. destruct (canon c =? canon q)%N; simpl; [apply IH|reflexivity].
Qed.

End Matcher.

Lemma find_close_lazy p s :
  rep_lazy fl_gi CAll 0 p s (fun p' s' => mt fl_gi (lits think_close) p' s' kfin)
  = find_close s.
Proof.
  revert p. induction s as [|c t IH]; intros p; [reflexivity|].
  rewrite rep_lazy_all.
  rewrite (mt_lits fl_gi think_close _ _ kfin (fun x => Some x));
    [|reflexivity|intros; reflexivity].
  change (find_close (c :: t)) with
    (if prefix_ci think_close (c :: t) then Some (skipn 8 (c :: t)) else find_close t).
  destruct (prefix_ci think_close (c :: t)); [reflexivity|]. apply IH.
Qed.

(** The matcher on [/<think>[\s\S]*?<\/think>/i] at any position. *)
Lemma mt_think p s : mt fl_gi think_re p s kfin = think_at s.
Proof.
  unfold think_re, think_at. cbn [mt].
  rewrite (mt_lits fl_gi think_open p s _ find_close) by
    (reflexivity || (intros; cbn [mt]; apply find_close_lazy)).
  reflexivity.
Qed.

Lemma drop_while_stop f s :
  drop_while f s = [] \/ exists c t, drop_while f s = c :: t /\ f c = false.
Proof.
  induction s as [|c t IH]; simpl; [auto|].
  destruct (f c) eqn:E; [exact IH|right; eauto].
Qed.

Lemma mt_marker_alt fl p s kc h :
  ignoreCase fl = false ->
  (forall p' x, kc p' x = Some (h x)) ->
  mt fl marker_alt p s kc = option_map h (marker_end s).
Proof.
  intros Hi Hk.
  set (G1 := fun s' : jsstr =>
         match s' with
         | c :: t => if (c =? 46)%N then
                       match t with [] => None | _ :: _ => Some (h (drop_ws t)) end
                     else None
         | [] => None
         end).
  assert (HK1 : forall p' s',
    mt fl (RSeq (RChar (CLit 46)) (RAlt (RRep CSpace 1 true) (RAhead CNotSpace))) p' s' kc
    = G1 s').
  { intros p' [|c t]; cbn [mt cls_match]; rewrite ?Hi; [reflexivity|].
    unfold G1. destruct (c =? 46)%N; [|reflexivity].
    destruct t as [|d t]; [reflexivity|]. cbn [rep_greedy].
    destruct (is_ws d) eqn:Ed; cbn [pred Nat.eqb negb].
    - rewrite (rep_greedy_max fl CSpace (Some d) t kc (fun x => Some (h x))
                 (h (drop_ws t))) by (auto; reflexivity).
      unfold drop_ws. simpl. rewrite Ed. reflexivity.
    - simpl. rewrite Ed. simpl. rewrite Hk. unfold drop_ws. simpl. rewrite Ed.
      reflexivity. }
  unfold marker_alt. rewrite mt_alt, mt_seq, mt_greedy.
  destruct s as [|c t]; [reflexivity|].
  rewrite rep_greedy_one. cbn [cls_match]. unfold marker_end.
  destruct (is_digit c) eqn:Ec.
  - rewrite (rep_greedy_excl fl CDigit (Some c) t _ G1 HK1).
    2:{ intros d x Hd. simpl in Hd. unfold G1.
        destruct (d =? 46)%N eqn:E; [|reflexivity].
        apply N.eqb_eq in E. subst d. discriminate. }
    assert (H45 : mt fl (RSeq (RChar (CLit 45)) (RRep CSpace 1 true)) p (c :: t) kc = None).
    { cbn [mt cls_match]. rewrite Hi. destruct (c =? 45)%N eqn:E; [|reflexivity].
      apply N.eqb_eq in E; subst c; discriminate. }
    change (cls_match fl CDigit) with is_digit. unfold G1.
    destruct (drop_while is_digit t) as [|d r]; [rewrite H45; reflexivity|].
    destruct (d =? 46)%N; [|rewrite H45; reflexivity].
    destruct r; [rewrite H45|]; reflexivity.
  - rewrite mt_seq. cbn [mt cls_match]. rewrite Hi.
    destruct (c =? 45)%N; [|reflexivity].
    destruct t as [|d t]; [reflexivity|].
    rewrite rep_greedy_one. cbn [cls_match].
    destruct (is_ws d) eqn:Ed; [|reflexivity].
    rewrite (rep_greedy_max fl CSpace (Some d) t kc (fun x => Some (h x))
               (h (drop_ws t))) by (auto; reflexivity).
    unfold drop_ws. simpl. rewrite Ed. reflexivity.
Qed.

(** The matcher on [/^(?:...)(.* )$/m] at any position. *)
Lemma mt_line_re p s :
  mt fl_gm line_re p s kfin =
  if bol fl_gm p then option_map drop_dot (marker_end s) else None.
Proof.
  unfold line_re. rewrite mt_seq, mt_bol.
  destruct (bol fl_gm p); [|reflexivity].
  rewrite mt_seq. apply mt_marker_alt; [reflexivity|].
  intros p' x. rewrite mt_seq, mt_greedy.
  apply (rep_greedy_max fl_gm CDot p' x _
           (fun y => if eol fl_gm y then Some y else None)); [reflexivity|].
  change (drop_while (cls_match fl_gm CDot) x) with (drop_dot x).
  unfold drop_dot.
  destruct (drop_while_stop (fun c => negb (is_lt c)) x) as [E|(c & t & E & Hc)];
    rewrite E; [reflexivity|].
  simpl. apply negb_false_iff in Hc. rewrite Hc. reflexivity.
Qed.

Lemma replace_first_eq fl r p s :
  replace_first fl r p s =
  match mt fl r p s kfin with
  | Some s' => s'
  | None => match s with [] => [] | c :: t => c :: replace_first fl r (Some c) t end
  end.
Proof. destruct s; reflexivity. Qed.

Lemma replace_first_marker_later c t :
  replace_first fl_none marker_re (Some c) t = t.
Proof.
  revert c. induction t as [|d t IH]; intros c; [reflexivity|].
  rewrite replace_first_eq. unfold marker_re. rewrite mt_seq, mt_bol. simpl bol.
  cbv iota. rewrite IH. reflexivity.
Qed.

(** [line.replace(/^(?:...)/, '')] removes the marker at the start. *)
Lemma replace_first_marker line :
  replace_first fl_none marker_re None line =
  match marker_end line with Some r => r | None => line end.
Proof.
  destruct line as [|c t]; [reflexivity|].
  rewrite replace_first_eq. unfold marker_re. rewrite mt_seq, mt_bol. simpl bol. cbv iota.
  rewrite (mt_marker_alt fl_none None (c :: t) kfin (fun x => x)) by reflexivity.
  destruct (marker_end (c :: t)); [reflexivity|].
  simpl. rewrite replace_first_marker_later. reflexivity.
Qed.

Lemma lastp_app p a b : lastp p (a ++ b) = lastp (lastp p a) b.
Proof. revert p. induction a; intros p; simpl; auto. Qed.

Lemma lastp_snoc p a c : lastp p (a ++ [c]) = Some c.
Proof. rewrite lastp_app. revert p. induction a; simpl; auto. Qed.

Lemma match_all_skip fl r p a b :
  match_all fl r p (length a) (a ++ b) = match_all fl r (lastp p a) 0 b.
Proof. revert p. induction a as [|c a IH]; intros p; simpl; auto. Qed.

Lemma replace_all_skip fl r p a b :
  replace_all fl r p (length a) (a ++ b) = replace_all fl r (lastp p a) 0 b.
Proof. revert p. induction a as [|c a IH]; intros p; simpl; auto. Qed.

Lemma length_app_sub (a b : jsstr) : length (a ++ b) - length b = length a.
Proof. rewrite length_app. lia. Qed.

Lemma firstn_app_exact (a b : jsstr) : firstn (length a) (a ++ b) = a.
Proof. rewrite firstn_app, Nat.sub_diag, firstn_all. simpl. apply app_nil_r. Qed.

(** ** Reasoning-block removal *)

Lemma prefix_ci_tail_stop tl x s0 w :
  Forall (fun q => canon q <> canon s0) tl ->
  prefix_ci tl (x ++ s0 :: w) = prefix_ci tl x.
Proof.
  revert x. induction tl as [|q tl IH]; intros x Hf; [reflexivity|].
  inversion Hf as [|? ? Hq Hf']; subst.
  destruct x as [|c x]; simpl.
  - destruct (canon s0 =? canon q)%N eqn:E; [|reflexivity].
    apply N.eqb_eq in E. congruence.
  - rewrite IH by exact Hf'. reflexivity.
Qed.

Lemma prefix_ci_boundary q0 tl c x y :
  Forall (fun q => canon q <> 60%N) tl ->
  opens_or_end y = true ->
  prefix_ci (q0 :: tl) (c :: x ++ y) = prefix_ci (q0 :: tl) (c :: x).
Proof.
  intros Hf Hy. destruct y as [|s0 w].
  - rewrite app_nil_r. reflexivity.
  - simpl in Hy. apply N.eqb_eq in Hy.
    cbn [prefix_ci]. rewrite prefix_ci_tail_stop; [reflexivity|].
    rewrite Hy. exact Hf.
Qed.

Lemma think_open_tail : Forall (fun q => canon q <> 60%N) (tl think_open).
Proof. repeat constructor; cbv; discriminate. Qed.

Lemma think_close_tail : Forall (fun q => canon q <> 60%N) (tl think_close).
Proof. repeat constructor; cbv; discriminate. Qed.

Lemma prefix_ci_canon pat o r :
  map canon o = map canon pat -> prefix_ci pat (o ++ r) = true.
Proof.
  revert o. induction pat as [|q pat IH]; intros [|c o] H; simpl in *;
    try discriminate; [reflexivity|].
  injection H as H1 H2. rewrite H1, N.eqb_refl. simpl. apply IH, H2.
Qed.

Lemma canon_length pat o : map canon o = map canon pat -> length o = length pat.
Proof. intros H. rewrite <- (length_map canon o), H. apply length_map. Qed.

Lemma occurs_ci_cons pat c x :
  occurs_ci pat (c :: x) = prefix_ci pat (c :: x) || occurs_ci pat x.
Proof. reflexivity. Qed.

Lemma replace_all_cons0 fl r p c t :
  replace_all fl r p 0 (c :: t) =
  match mt fl r p (c :: t) kfin with
  | Some s' =>
      match length (c :: t) - length s' with
      | O => c :: replace_all fl r (Some c) 0 t
      | S k => replace_all fl r (Some c) k t
      end
  | None => c :: replace_all fl r (Some c) 0 t
  end.
Proof. reflexivity. Qed.

Lemma find_close_eq s :
  find_close s =
  if prefix_ci think_close s then Some (skipn 8 s)
  else match s with [] => None | _ :: t => find_close t end.
Proof. destruct s; reflexivity. Qed.

(** The removal does not look at the previous code unit. *)
Lemma replace_think_prev p p' k s :
  replace_all fl_gi think_re p k s = replace_all fl_gi think_re p' k s.
Proof.
  revert p p' k. induction s as [|c t IH]; intros p p' k; [reflexivity|].
  destruct k as [|k]; [|reflexivity].
  rewrite !replace_all_cons0, !mt_think. reflexivity.
Qed.

Lemma replace_think_pre p x y :
  occurs_ci think_open x = false ->
  opens_or_end y = true ->
  replace_all fl_gi think_re p 0 (x ++ y) = x ++ replace_all fl_gi think_re p 0 y.
Proof.
  intros Hx Hy. revert p. induction x as [|c x IH]; intros p; [reflexivity|].
  rewrite occurs_ci_cons in Hx. apply orb_false_iff in Hx as [Hp Hx'].
  cbn [app]. rewrite replace_all_cons0, mt_think. unfold think_at.
  change think_open with (60%N :: tl think_open).
  rewrite prefix_ci_boundary by (exact think_open_tail || exact Hy).
  change (60%N :: tl think_open) with think_open. rewrite Hp.
  rewrite IH by exact Hx'. rewrite (replace_think_prev (Some c) p). reflexivity.
Qed.

Lemma find_close_block mid cl rest :
  occurs_ci think_close mid = false ->
  map canon cl = map canon think_close ->
  find_close (mid ++ cl ++ rest) = Some rest.
Proof.
  intros Hm Hc. induction mid as [|c mid IH].
  - rewrite find_close_eq. simpl app.
    rewrite (prefix_ci_canon think_close cl rest Hc). f_equal.
    replace 8 with (length cl) by (rewrite (canon_length _ _ Hc); reflexivity).
    rewrite skipn_app, Nat.sub_diag, skipn_all. reflexivity.
  - rewrite occurs_ci_cons in Hm. apply orb_false_iff in Hm as [Hp Hm'].
    rewrite find_close_eq. cbn [app].
    change think_close with (60%N :: tl think_close).
    rewrite prefix_ci_boundary; [|exact think_close_tail|].
    + change (60%N :: tl think_close) with think_close. rewrite Hp. apply IH, Hm'.
    + destruct cl as [|d cl]; [discriminate|].
      simpl in Hc. injection Hc as Hd _. simpl. rewrite Hd. reflexivity.
Qed.

Lemma replace_think_block p b rest :
  block_ok b ->
  replace_all fl_gi think_re p 0 (block_text b ++ rest) =
  blk_pre b ++ replace_all fl_gi think_re p 0 rest.
Proof.
  intros (Hpre & Ho & Hmid & Hc). unfold block_text. rewrite <- !app_assoc.
  rewrite replace_think_pre; [|exact Hpre|].
  2:{ destruct (blk_open b) as [|d o]; [discriminate|].
      simpl in Ho. injection Ho as Hd _. simpl. rewrite Hd. reflexivity. }
  f_equal.
  destruct (blk_open b) as [|c o] eqn:Eo; [discriminate|].
  cbn [app]. rewrite replace_all_cons0, mt_think. unfold think_at.
  change (c :: o ++ blk_mid b ++ blk_close b ++ rest)
    with ((c :: o) ++ blk_mid b ++ blk_close b ++ rest).
  rewrite (prefix_ci_canon think_open (c :: o) _ Ho).
  assert (Hlo : length (c :: o) = 7) by (rewrite (canon_length _ _ Ho); reflexivity).
  rewrite skipn_app, Hlo, Nat.sub_diag. simpl skipn at 2.
  rewrite skipn_all2 by lia. simpl app.
  rewrite (find_close_block _ _ rest Hmid Hc).
  replace (length (c :: o ++ blk_mid b ++ blk_close b ++ rest) - length rest)
    with (S (length (o ++ blk_mid b ++ blk_close b)))
    by (cbn [length]; rewrite !length_app; lia).
  replace (o ++ blk_mid b ++ blk_close b ++ rest)
    with ((o ++ blk_mid b ++ blk_close b) ++ rest) by (rewrite <- !app_assoc; reflexivity).
  rewrite replace_all_skip. apply replace_think_prev.
Qed.

Lemma strip_think_id x :
  occurs_ci think_open x = false -> strip_think x = x.
Proof.
  intros H. unfold strip_think.
  rewrite <- (app_nil_r x) at 1. rewrite replace_think_pre by auto.
  apply app_nil_r.
Qed.

Lemma strip_think_blocks bs tail :
  Forall block_ok bs ->
  occurs_ci think_open tail = false ->
  strip_think (concat (map block_text bs) ++ tail) = concat (map blk_pre bs) ++ tail.
Proof.
  intros Hbs Ht. unfold strip_think. generalize (@None N) as p.
  induction Hbs as [|b bs Hb Hbs IH]; intros p; simpl.
  - rewrite <- (app_nil_r tail) at 1. rewrite replace_think_pre by auto.
    rewrite !app_nil_r. reflexivity.
  - rewrite <- !app_assoc, replace_think_block by exact Hb. rewrite IH. reflexivity.
Qed.

Lemma replace_think_no_pair p s :
  no_pair s = true -> replace_all fl_gi think_re p 0 s = s.
Proof.
  revert p; induction s as [|c t IH]; intros p H; [reflexivity|].
  cbn [no_pair] in H. apply andb_prop in H as [H1 H2].
  rewrite replace_all_cons0, mt_think.
  destruct (think_at (c :: t)); [discriminate|]. rewrite IH by exact H2. reflexivity.
Qed.

Lemma strip_think_blocks_no_pair bs tail :
  Forall block_ok bs ->
  no_pair tail = true ->
  strip_think (concat (map block_text bs) ++ tail) = concat (map blk_pre bs) ++ tail.
Proof.
  intros Hbs Ht. unfold strip_think. generalize (@None N) as p.
  induction Hbs as [|b bs Hb Hbs IH]; intros p; simpl.
  - apply replace_think_no_pair, Ht.
  - rewrite <- !app_assoc, replace_think_block by exact Hb. rewrite IH. reflexivity.
Qed.

(** ** Display text and digits *)

Lemma digit_char_digit d : d < 10 -> is_digit (digit_char d) = true.
Proof.
  intros H. unfold is_digit, digit_char.
  apply andb_true_iff. split; apply N.leb_le; lia.
Qed.

Lemma dec_aux_digits f n acc :
  Forall (fun c => is_digit c = true) acc ->
  Forall (fun c => is_digit c = true) (dec_aux f n acc) /\
  (acc <> [] \/ f <> 0 -> dec_aux f n acc <> []).
Proof.
  revert n acc. induction f as [|f IH]; intros n acc Hacc; simpl.
  - split; [exact Hacc|]. intros [H|H]; [exact H|lia].
  - assert (Hd : Forall (fun c => is_digit c = true) (digit_char (n mod 10) :: acc)).
    { constructor; [apply digit_char_digit, Nat.mod_upper_bound; lia|exact Hacc]. }
    destruct (n <? 10).
    + split; [exact Hd|]. intros _. discriminate.
    + destruct (IH (n / 10) _ Hd) as [H1 H2]. split; [exact H1|].
      intros _. apply H2. left. discriminate.
Qed.

Lemma dec_digits n :
  exists d ds, dec n = d :: ds /\ is_digit d = true /\
               Forall (fun c => is_digit c = true) ds.
Proof.
  destruct (dec_aux_digits (S n) n [] (Forall_nil _)) as [H1 H2].
  unfold dec. destruct (dec_aux (S n) n []) as [|d ds].
  - exfalso. apply H2; [right; lia|reflexivity].
  - inversion H1; subst. eauto.
Qed.

Lemma drop_while_app_all f a b :
  Forall (fun c => f c = true) a -> drop_while f (a ++ b) = drop_while f b.
Proof. induction 1 as [|c a Hc _ IH]; simpl; [reflexivity|]. rewrite Hc. exact IH. Qed.

Lemma occurs_open_safe_prefix sep z :
  Forall (fun c => canon c <> 60%N) sep ->
  occurs_ci think_open (sep ++ z) = occurs_ci think_open z.
Proof.
  induction 1 as [|c sep Hc _ IH]; [reflexivity|].
  cbn [app]. rewrite occurs_ci_cons, IH.
  change think_open with (60%N :: tl think_open). cbn [prefix_ci].
  replace (canon c =? canon 60)%N with false; [reflexivity|].
  symmetry. apply N.eqb_neq. exact Hc.
Qed.

Lemma occurs_open_newline x z :
  occurs_ci think_open (x ++ 10%N :: z) =
  occurs_ci think_open x || occurs_ci think_open (10%N :: z).
Proof.
  induction x as [|c x IH]; [reflexivity|].
  cbn [app]. rewrite !occurs_ci_cons, IH, orb_assoc. f_equal. f_equal.
  change think_open with (60%N :: tl think_open). cbn [prefix_ci].
  rewrite prefix_ci_tail_stop; [reflexivity|].
  repeat constructor; cbv; discriminate.
Qed.

Lemma dec_safe n : Forall (fun c => canon c <> 60%N) (dec n ++ js ". ").
Proof.
  destruct (dec_digits n) as (d & ds & E & Hd & Hds). rewrite E.
  assert (Hsafe : forall c, is_digit c = true -> canon c <> 60%N).
  { intros c Hc. unfold is_digit in Hc. apply andb_true_iff in Hc as [H1 H2].
    apply N.leb_le in H1, H2. unfold canon.
    replace ((97 <=? c)%N && (c <=? 122)%N) with false.
    - lia.
    - symmetry. apply andb_false_iff. left. apply N.leb_gt. lia. }
  cbn [app]. constructor; [auto|].
  apply Forall_app. split.
  - eapply Forall_impl; [|exact Hds]. exact Hsafe.
  - repeat constructor; cbv; discriminate.
Qed.

Lemma render_no_open i actions :
  Forall plain_action actions ->
  occurs_ci think_open (join_lines (number_from i actions)) = false.
Proof.
  intros H. revert i. induction H as [|a t Ha Ht IH]; intros i; [reflexivity|].
  destruct Ha as (_ & _ & _ & _ & Hopen & _).
  destruct t as [|b t].
  - change (join_lines (number_from i [a])) with (dec i ++ js ". " ++ a).
    rewrite app_assoc, occurs_open_safe_prefix by apply dec_safe. exact Hopen.
  - change (join_lines (number_from i (a :: b :: t)))
      with ((dec i ++ js ". " ++ a) ++ [10%N] ++ join_lines (number_from (S i) (b :: t))).
    replace ((dec i ++ js ". " ++ a) ++ [10%N] ++ join_lines (number_from (S i) (b :: t)))
      with ((dec i ++ js ". ") ++ (a ++ 10%N :: join_lines (number_from (S i) (b :: t))))
      by (rewrite <- !app_assoc; reflexivity).
    rewrite occurs_open_safe_prefix by apply dec_safe.
    rewrite occurs_open_newline, Hopen.
    pose proof (occurs_open_safe_prefix [10%N] (join_lines (number_from (S i) (b :: t))))
      as H10. cbn [app] in H10.
    rewrite H10; [apply IH|]. repeat constructor; cbv; discriminate.
Qed.

(** ** Line scanning on the display text *)

Lemma match_all_cons0 fl r p c t :
  match_all fl r p 0 (c :: t) =
  match mt fl r p (c :: t) kfin with
  | Some s' =>
      firstn (length (c :: t) - length s') (c :: t)
        :: match_all fl r (Some c) (pred (length (c :: t) - length s')) t
  | None => match_all fl r (Some c) 0 t
  end.
Proof. reflexivity. Qed.

Lemma match_all_nil p : match_all fl_gm line_re p 0 [] = [].
Proof.
  change (match_all fl_gm line_re p 0 [])
    with (match mt fl_gm line_re p [] kfin with Some _ => [@nil N] | None => [] end).
  rewrite mt_line_re. destruct (bol fl_gm p); reflexivity.
Qed.

Lemma marker_end_line i a rest :
  a <> [] -> is_ws (hd 0%N a) = false ->
  marker_end (dec i ++ js ". " ++ a ++ rest) = Some (a ++ rest).
Proof.
  intros Ha Hh. destruct (dec_digits i) as (d & ds & E & Hd & Hds). rewrite E.
  change (js ". ") with [46%N; 32%N]. cbn [app]. unfold marker_end. rewrite Hd.
  rewrite drop_while_app_all by exact Hds.
  replace (drop_while is_digit (46%N :: 32%N :: a ++ rest))
    with (46%N :: 32%N :: a ++ rest) by reflexivity.
  rewrite N.eqb_refl. f_equal.
  unfold drop_ws. destruct a as [|a0 a]; [congruence|].
  simpl in Hh. simpl. rewrite Hh. reflexivity.
Qed.

Lemma drop_dot_line a rest :
  Forall (fun c => is_lt c = false) a ->
  (rest = [] \/ exists more, rest = 10%N :: more) ->
  drop_dot (a ++ rest) = rest.
Proof.
  intros Ha Hr. unfold drop_dot. rewrite drop_while_app_all.
  - destruct Hr as [->|(m & ->)]; reflexivity.
  - eapply Forall_impl; [|exact Ha]. intros c Hc. rewrite Hc. reflexivity.
Qed.

Lemma plain_last_not_lt a :
  a <> [] -> Forall (fun c => is_lt c = false) a -> is_lt (last a 0%N) = false.
Proof.
  intros Hne Hlt. destruct (exists_last Hne) as (a' & z & ->).
  rewrite last_last. apply Forall_app in Hlt as [_ Hz]. inversion Hz; assumption.
Qed.

Lemma match_all_line i a rest p :
  plain_action a -> bol fl_gm p = true ->
  (rest = [] \/ exists more, rest = 10%N :: more) ->
  match_all fl_gm line_re p 0 (dec i ++ js ". " ++ a ++ rest) =
  (dec i ++ js ". " ++ a) :: match_all fl_gm line_re (Some (last a 0%N)) 0 rest.
Proof.
  intros (Hne & Hlt & Hh & _ & _ & _) Hp Hr.
  assert (Hm : mt fl_gm line_re p (dec i ++ js ". " ++ a ++ rest) kfin = Some rest).
  { rewrite mt_line_re, Hp, marker_end_line by assumption. simpl.
    f_equal. apply drop_dot_line; assumption. }
  destruct (dec_digits i) as (d & ds & E & _ & _).
  set (X := ds ++ js ". " ++ a).
  assert (Hline : dec i ++ js ". " ++ a = d :: X) by (unfold X; rewrite E; reflexivity).
  assert (Hall : dec i ++ js ". " ++ a ++ rest = d :: X ++ rest)
    by (unfold X; rewrite E; cbn [app]; rewrite <- !app_assoc; reflexivity).
  rewrite Hall in Hm |- *. rewrite Hline.
  rewrite match_all_cons0, Hm.
  replace (length (d :: X ++ rest) - length rest) with (S (length X))
    by (cbn [length]; rewrite length_app; lia).
  cbn [firstn pred]. rewrite firstn_app_exact, match_all_skip.
  f_equal. f_equal. unfold X.
  destruct (exists_last Hne) as (a' & z & Ea). rewrite Ea, last_last.
  rewrite !app_assoc. apply lastp_snoc.
Qed.

Lemma trim_plain a :
  a <> [] -> is_ws (hd 0%N a) = false -> is_ws (last a 0%N) = false -> trim a = a.
Proof.
  intros Hne Hh Hl. unfold trim, drop_ws.
  destruct a as [|a0 a]; [congruence|]. simpl in Hh. simpl drop_while. rewrite Hh.
  destruct (exists_last Hne) as (a' & z & Ea). rewrite Ea in Hl |- *.
  rewrite last_last in Hl. rewrite rev_app_distr. cbn [rev app drop_while].
  rewrite Hl. cbn [rev]. rewrite rev_involutive. reflexivity.
Qed.

Lemma strip_line_plain i a :
  plain_action a ->
  trim (replace_first fl_none marker_re None (dec i ++ js ". " ++ a)) = a.
Proof.
  intros (Hne & Hlt & Hh & Hl & _ & _).
  rewrite replace_first_marker.
  rewrite <- (app_nil_r a) at 1. rewrite marker_end_line by assumption.
  rewrite app_nil_r. apply trim_plain; assumption.
Qed.

Lemma extract_render_from i p actions :
  Forall plain_action actions -> bol fl_gm p = true ->
  map (fun line => trim (replace_first fl_none marker_re None line))
      (match_all fl_gm line_re p 0 (join_lines (number_from i actions))) = actions.
Proof.
  intros H. revert i p. induction H as [|a t Ha Ht IH]; intros i p Hp.
  - simpl join_lines. rewrite match_all_nil. reflexivity.
  - destruct t as [|b t].
    + change (join_lines (number_from i [a])) with (dec i ++ js ". " ++ a).
      replace (dec i ++ js ". " ++ a) with (dec i ++ js ". " ++ a ++ [])
        by (rewrite app_nil_r; reflexivity).
      rewrite match_all_line by auto.
      rewrite match_all_nil. simpl map. f_equal.
      apply strip_line_plain, Ha.
    + change (join_lines (number_from i (a :: b :: t)))
        with ((dec i ++ js ". " ++ a) ++ [10%N] ++ join_lines (number_from (S i) (b :: t))).
      rewrite <- !app_assoc.
      rewrite match_all_line; [|exact Ha|exact Hp|right; eexists; reflexivity].
      cbn [map]. rewrite strip_line_plain by exact Ha. f_equal.
      cbn [app]. rewrite match_all_cons0, mt_line_re.
      destruct Ha as (Hne & Hlt & _).
      simpl bol. rewrite (plain_last_not_lt a Hne Hlt). simpl.
      apply IH. reflexivity.
Qed.

(** ** The flow model *)

Lemma length_set_at {A} k (x : A) l : length (set_at k x l) = length l.
Proof. revert k; induction l as [|y l IH]; intros [|k]; simpl; auto. Qed.

Lemma nth_error_set_at_eq {A} k (x : A) l :
  k < length l -> nth_error (set_at k x l) k = Some x.
Proof.
  revert k; induction l as [|y l IH]; intros [|k] H; simpl in *; try lia; auto.
  apply IH. lia.
Qed.

Lemma nth_error_set_at_neq {A} k j (x : A) l :
  j <> k -> nth_error (set_at k x l) j = nth_error l j.
Proof.
  revert k j; induction l as [|y l IH]; intros [|k] [|j] H; simpl; auto; try congruence.
Qed.

Lemma find_target_at_spec id k0 chat k :
  find_target_at id k0 chat = Some k ->
  k0 <= k /\ exists m, nth_error chat (k - k0) = Some m /\ target m = Some id.
Proof.
  revert k0; induction chat as [|m t IH]; intros k0 H; simpl in H; [discriminate|].
  assert (Hrec : find_target_at id (S k0) t = Some k ->
                 k0 <= k /\ exists m', nth_error (m :: t) (k - k0) = Some m' /\ target m' = Some id).
  { intros H'. destruct (IH _ H') as (Hle & m' & Hn & Ht). split; [lia|].
    exists m'. replace (k - k0) with (S (k - S k0)) by lia. simpl. auto. }
  destruct (target m) as [j|] eqn:Et.
  - destruct (Nat.eqb_spec j id).
    + injection H as <-. split; [lia|]. exists m. rewrite Nat.sub_diag. subst. auto.
    + auto.
  - auto.
Qed.

Lemma find_target_spec id chat k :
  find_target id chat = Some k ->
  exists m, nth_error chat k = Some m /\ target m = Some id.
Proof.
  intros H. destruct (find_target_at_spec id 0 chat k H) as (_ & m & Hm & Ht).
  rewrite Nat.sub_0_r in Hm. eauto.
Qed.

(** Upserting for a target that already has an annotation rewrites that
    message only. *)
Lemma upsert_existing id resp strategy actions chat k :
  find_target id chat = Some k ->
  length (upsert id resp strategy actions chat) = length chat /\
  (exists mk, nth_error (upsert id resp strategy actions chat) k =
              Some (mkMessage mk (Some id) (Some resp) (Some (map Some actions)))) /\
  (forall j, j <> k -> nth_error (upsert id resp strategy actions chat) j = nth_error chat j).
Proof.
  intros H. destruct (find_target_spec _ _ _ H) as (m & Hm & Ht).
  unfold upsert. rewrite H, Hm, Ht.
  split; [apply length_set_at|]. split.
  - eexists. apply nth_error_set_at_eq. apply nth_error_Some. congruence.
  - intros j Hj. apply nth_error_set_at_neq, Hj.
Qed.

(** The upsert leaves a message for the target holding the markup and the
    action list. *)
Lemma upsert_target id resp strategy actions chat :
  exists k m, nth_error (upsert id resp strategy actions chat) k = Some m /\
    target m = Some id /\
    mes m = formatResponse (match actions with [] => resp | _ => render_actions actions end)
              (match strategy with Some StrategyBullet => Some actions | _ => None end) /\
    options m = Some (map Some actions) /\
    (actions = [] -> raw_content m = Some resp).
Proof.
  unfold upsert. destruct (find_target id chat) as [k|] eqn:Ef.
  - destruct (find_target_spec _ _ _ Ef) as (m & Hm & Ht). rewrite Hm.
    exists k. eexists. split.
    + apply nth_error_set_at_eq. apply nth_error_Some. congruence.
    + simpl. rewrite Ht. auto.
  - exists (length chat). eexists. split.
    + rewrite nth_error_app2, Nat.sub_diag by lia. reflexivity.
    + simpl. repeat split. intros ->. reflexivity.
Qed.

Lemma resume_flows id pc r w : flows (fst (resume id pc r w)) = flows w.
Proof.
  unfold resume.
  destruct pc, r; try reflexivity;
  repeat match goal with
         | |- context [match ?x with _ => _ end] => destruct x
         end; reflexivity.
Qed.

Lemma step_resume w i id pc r :
  nth_error (flows w) i = Some (id, pc) ->
  step w (Resume i r) =
  set_flows (set_at i (id, snd (resume id pc r w)) (flows w)) (fst (resume id pc r w)).
Proof.
  intros H. unfold step. rewrite H.
  rewrite <- (resume_flows id pc r w). destruct (resume id pc r w). reflexivity.
Qed.

Lemma step_resume_pc w i id pc r :
  nth_error (flows w) i = Some (id, pc) ->
  nth_error (flows (step w (Resume i r))) i = Some (id, snd (resume id pc r w)).
Proof.
  intros H. rewrite (step_resume _ _ _ _ _ H). simpl.
  apply nth_error_set_at_eq. apply nth_error_Some. congruence.
Qed.

(** A flow past the in-flight guard ends only through the [finally]
    block. *)
Lemma resume_done_cleanup id pc r w :
  passed pc = true -> snd (resume id pc r w) = Done ->
  fst (resume id pc r w) = cleanup id w.
Proof.
  intros Hp. destruct pc, r; simpl in Hp; try discriminate; simpl; auto;
  repeat match goal with
         | |- context [match ?x with _ => _ end] => destruct x
         end; simpl; intros; try discriminate; auto.
Qed.

Lemma not_in_set_delete id s : ~ In id (set_delete id s).
Proof.
  unfold set_delete. rewrite filter_In. intros [_ H].
  rewrite Nat.eqb_refl in H. discriminate.
Qed.

Lemma marker_end_start s : marker_end s <> None -> marker_start s = true.
Proof.
  unfold marker_end, marker_start. destruct s as [|c t]; [congruence|].
  destruct (is_digit c).
  - destruct (drop_while is_digit t) as [|d r]; [congruence|].
    destruct (d =? 46)%N; [reflexivity|congruence].
  - destruct (c =? 45)%N; [|congruence]. destruct t as [|d t]; [congruence|].
    destruct (is_ws d); [reflexivity|congruence].
Qed.

Lemma match_all_no_marker p s :
  no_marker_lines p s = true -> match_all fl_gm line_re p 0 s = [].
Proof.
  revert p; induction s as [|c t IH]; intros p H; [apply match_all_nil|].
  cbn [no_marker_lines] in H. apply andb_prop in H as [H1 H2].
  rewrite match_all_cons0, mt_line_re.
  destruct (bol fl_gm p) eqn:Eb.
  - destruct (marker_end (c :: t)) eqn:Em.
    + exfalso. assert (Hs : marker_start (c :: t) = true)
        by (apply marker_end_start; congruence).
      rewrite Hs in H1. destruct p as [d|]; simpl in Eb, H1; [rewrite Eb in H1|]; discriminate.
    + apply IH, H2.
  - apply IH, H2.
Qed.

Lemma extract_no_marker resp :
  no_marker_lines None (strip_think resp) = true -> extractBulletPoints resp = [].
Proof.
  intros H. unfold extractBulletPoints, extract_lines.
  rewrite match_all_no_marker by exact H. reflexivity.
Qed.

Lemma js_set_in_range opts idx v :
  idx < length opts -> js_set opts idx v = set_at idx (Some v) opts.
Proof. intros H. unfold js_set. apply Nat.ltb_lt in H. rewrite H. reflexivity. Qed.

Lemma resume_send_bullet_empty id resp w :
  option_map extractionStrategy (current_preset w) = Some StrategyBullet ->
  extractBulletPoints resp = [] ->
  resume id PSend (Resolve resp) w = (echo EchoWarning MsgNoBullets w, PEmptyEcho resp).
Proof.
  intros Hs Hx. unfold resume. cbv beta iota zeta. rewrite Hs, Hx. reflexivity.
Qed.

Lemma resume_send_store id resp w :
  (option_map extractionStrategy (current_preset w) = Some StrategyBullet ->
   extractBulletPoints resp <> []) ->
  resume id PSend (Resolve resp) w =
  (store id resp (option_map extractionStrategy (current_preset w))
     (flow_actions (option_map extractionStrategy (current_preset w)) resp) w, PSave).
Proof.
  intros H. unfold resume, flow_actions. cbv beta iota zeta.
  destruct (option_map extractionStrategy (current_preset w)) as [[|]|]; try reflexivity.
  destruct (extractBulletPoints resp) as [|a acts]; [|reflexivity].
  exfalso. apply H; reflexivity.
Qed.

Lemma resume_reject id pc w :
  passed pc = true -> pc <> PCatchEcho -> resume id pc Reject w = catch w.
Proof. intros Hp Hc. destruct pc; simpl in Hp; try discriminate; first [reflexivity | congruence]. Qed.

(* ================================================================== *)
(** * The claims *)

(** C1 (bullet extraction, line by line).  On the example of the
    specification extraction gives [Do X; Do Y; Do Z].  But a line that is
    only a marker ["1."] or ["-"] swallows the line break after it (the
    whitespace run after the marker is [\s+], which matches line breaks),
    so the next line is kept even though it has no marker. *)
Theorem extract_marker_crosses_line :
  extractBulletPoints (js "1. Do X" ++ [10%N] ++ js "2. Do Y" ++ [10%N] ++
                       js "- Do Z" ++ [10%N] ++ js "Plain line")
    = [js "Do X"; js "Do Y"; js "Do Z"] /\
  extractBulletPoints (js "1." ++ [10%N] ++ js "Plain line") = [js "Plain line"] /\
  extractBulletPoints (js "-" ++ [10%N] ++ js "Plain line") = [js "Plain line"].
Proof. split; [|split]; vm_compute; reflexivity. Qed.

(** C2 (in-flight guard).  A second call for id 5 while the first waits on
    [buildPrompt] dispatches nothing and warns; but its [return] sits inside
    the [try], so the [finally] deletes 5 from [pendingRequests] while the
    first flow is still in flight; a third call then passes the guard and
    both flows send a request for 5. *)
Theorem in_flight_guard_released_early :
  prompts_built (run sample_world [Call 5; Call 5]) = [5] /\
  echoes (run sample_world [Call 5; Call 5]) = [(EchoWarning, MsgInProgress)] /\
  nth_error (flows (run sample_world [Call 5; Call 5; Resume 1 (Resolve [])])) 0
    = Some (5, PBuild) /\
  pendingRequests (run sample_world [Call 5; Call 5; Resume 1 (Resolve [])]) = [] /\
  nth_error (flows (run sample_world [Call 5; Call 5; Resume 1 (Resolve []); Call 5;
                                      Resume 0 (Resolve []); Resume 2 (Resolve [])])) 0
    = Some (5, PSend) /\
  requests_sent (run sample_world [Call 5; Call 5; Resume 1 (Resolve []); Call 5;
                                   Resume 0 (Resolve []); Resume 2 (Resolve [])])
    = [5; 5].
Proof. repeat split; vm_compute; reflexivity. Qed.

(** C3 (reasoning blocks), counterexample.  The removal is one pass: in
    ["<thi<think>x</think>nk>" newline "1. A</think>"] removing the block
    leaves ["<think>" newline "1. A</think>"], whose own extraction is empty,
    while extraction of the original text keeps ["A</think>"]. *)
Lemma extract_think_single_pass :
  extractBulletPoints
    (block_text (mkBlock (js "<thi") think_open (js "x") think_close)
       ++ js "nk>" ++ [10%N] ++ js "1. A</think>") = [js "A</think>"] /\
  extractBulletPoints (js "<thi" ++ js "nk>" ++ [10%N] ++ js "1. A</think>") = [].
Proof. split; vm_compute; reflexivity. Qed.

(** C3 (reasoning blocks), amended.  For a text made of reasoning blocks
    (each: a text with no opening delimiter, an opening delimiter in any
    case, content with no closing delimiter, a closing delimiter in any
    case, possibly across lines) followed by a tail in which no opening
    delimiter is followed by a closing one (an unclosed [<think>] is
    allowed), extraction equals the line scan of the text with every block
    removed; it equals the full extraction of that text when the removal
    leaves no complete delimiter pair in it. *)
Theorem extract_ignores_think bs tail :
  Forall block_ok bs ->
  no_pair tail = true ->
  extractBulletPoints (concat (map block_text bs) ++ tail)
    = extract_lines (concat (map blk_pre bs) ++ tail) /\
  (no_pair (concat (map blk_pre bs) ++ tail) = true ->
   extractBulletPoints (concat (map block_text bs) ++ tail)
     = extractBulletPoints (concat (map blk_pre bs) ++ tail)).
Proof.
  intros Hb Ht. unfold extractBulletPoints at 1.
  rewrite strip_think_blocks_no_pair by assumption. split; [reflexivity|].
  intros Ho. unfold extractBulletPoints. unfold strip_think at 2.
  rewrite strip_think_blocks_no_pair, (replace_think_no_pair _ _ Ho) by assumption.
  reflexivity.
Qed.

Lemma extract_ignores_think_witness :
  Forall block_ok
    [mkBlock [] (js "<think>") (js "a") (js "</think>");
     mkBlock (js "1. A") (js "<THINK>") (js "- hidden") (js "</Think>")] /\
  no_pair ([10%N] ++ js "1. X" ++ [10%N] ++ js "<think>cut") = true /\
  extractBulletPoints
    (concat (map block_text
      [mkBlock [] (js "<think>") (js "a") (js "</think>");
       mkBlock (js "1. A") (js "<THINK>") (js "- hidden") (js "</Think>")])
     ++ [10%N] ++ js "1. X" ++ [10%N] ++ js "<think>cut")
  = extractBulletPoints
      (concat (map blk_pre
        [mkBlock [] (js "<think>") (js "a") (js "</think>");
         mkBlock (js "1. A") (js "<THINK>") (js "- hidden") (js "</Think>")])
       ++ [10%N] ++ js "1. X" ++ [10%N] ++ js "<think>cut").
Proof.
  assert (Hb : Forall block_ok
    [mkBlock [] (js "<think>") (js "a") (js "</think>");
     mkBlock (js "1. A") (js "<THINK>") (js "- hidden") (js "</Think>")]).
  { repeat constructor. }
  assert (Ht : no_pair ([10%N] ++ js "1. X" ++ [10%N] ++ js "<think>cut") = true)
    by (vm_compute; reflexivity).
  split; [exact Hb|]. split; [exact Ht|].
  exact (proj2 (extract_ignores_think _ _ Hb Ht) ltac:(vm_compute; reflexivity)).
Defined.

(** C4 (regeneration updates in place).  When the flow for [id] receives
    the response while an annotation for [id] exists at index [k], the
    flow reaches [saveChat] (directly, or after the no-bullets warning)
    with the chat of the same length, message [k] holding the target, the
    response and exactly the actions extracted from it, and every other
    message unchanged. *)
Theorem regenerate_updates_in_place w i id resp k x :
  nth_error (flows w) i = Some (id, PSend) ->
  find_target id (chat w) = Some k ->
  exists w2,
    (w2 = step w (Resume i (Resolve resp)) \/
     w2 = step (step w (Resume i (Resolve resp))) (Resume i (Resolve x))) /\
    nth_error (flows w2) i = Some (id, PSave) /\
    length (chat w2) = length (chat w) /\
    (exists mk, nth_error (chat w2) k =
       Some (mkMessage mk (Some id) (Some resp)
         (Some (map Some (flow_actions (option_map extractionStrategy (current_preset w)) resp))))) /\
    (forall j, j <> k -> nth_error (chat w2) j = nth_error (chat w) j).
Proof.
  intros Hf Hk.
  assert (Hc : option_map extractionStrategy (current_preset w) = Some StrategyBullet /\
               extractBulletPoints resp = [] \/
               (option_map extractionStrategy (current_preset w) = Some StrategyBullet ->
                extractBulletPoints resp <> [])).
  { destruct (option_map extractionStrategy (current_preset w)) as [[|]|];
    destruct (extractBulletPoints resp);
    first [left; split; reflexivity | right; intros ?; congruence]. }
  destruct Hc as [[Hs Hx]|Hn].
  - pose proof (step_resume_pc w i id PSend (Resolve resp) Hf) as H1.
    rewrite resume_send_bullet_empty in H1 by assumption.
    exists (step (step w (Resume i (Resolve resp))) (Resume i (Resolve x))).
    split; [right; reflexivity|].
    pose proof (step_resume_pc _ _ _ _ (Resolve x) H1) as H2.
    change (snd (resume id (PEmptyEcho resp) (Resolve x) _)) with PSave in H2.
    split; [exact H2|].
    rewrite (step_resume _ _ _ _ _ H1).
    rewrite (step_resume _ _ _ _ _ Hf), resume_send_bullet_empty by assumption.
    cbn [fst resume set_flows store echo chat].
    unfold flow_actions. rewrite Hs, Hx.
    apply upsert_existing, Hk.
  - exists (step w (Resume i (Resolve resp))). split; [left; reflexivity|].
    pose proof (step_resume_pc w i id PSend (Resolve resp) Hf) as H1.
    rewrite resume_send_store in H1 by assumption.
    split; [exact H1|].
    rewrite (step_resume _ _ _ _ _ Hf), resume_send_store by assumption.
    cbn [fst set_flows store chat].
    apply upsert_existing, Hk.
Qed.

Lemma regenerate_updates_in_place_witness :
  nth_error (flows (sample_world_at PSend)) 0 = Some (2, PSend) /\
  find_target 2 (chat (sample_world_at PSend)) = Some 3 /\
  exists w2,
    (w2 = step (sample_world_at PSend) (Resume 0 (Resolve (js "1. Go south"))) \/
     w2 = step (step (sample_world_at PSend) (Resume 0 (Resolve (js "1. Go south"))))
            (Resume 0 (Resolve []))) /\
    nth_error (flows w2) 0 = Some (2, PSave) /\
    length (chat w2) = length (chat (sample_world_at PSend)) /\
    (exists mk, nth_error (chat w2) 3 =
       Some (mkMessage mk (Some 2) (Some (js "1. Go south"))
         (Some (map Some (flow_actions
            (option_map extractionStrategy (current_preset (sample_world_at PSend)))
            (js "1. Go south")))))) /\
    (forall j, j <> 3 -> nth_error (chat w2) j = nth_error (chat (sample_world_at PSend)) j).
Proof.
  split; [reflexivity|]. split; [reflexivity|].
  apply (regenerate_updates_in_place (sample_world_at PSend) 0 2 (js "1. Go south") 3 []);
    reflexivity.
Defined.

(** C5 (raw content).  A fresh annotation stores [innerText] as its raw
    content, which under the bullet strategy is the numbered rendering of
    the actions, not the response; the update path stores the response. *)
Theorem fresh_annotation_raw_is_rendered :
  map raw_content
    (chat (run sample_world
      [Call 2; Resume 0 (Resolve []); Resume 0 (Resolve (js "Sure!" ++ [10%N] ++ js "1. Do X"))]))
    = repeat None 6 ++ [Some (js "1. Do X")] /\
  js "1. Do X" <> js "Sure!" ++ [10%N] ++ js "1. Do X" /\
  map raw_content
    (chat (run sample_world
      [Call 2; Resume 0 (Resolve []); Resume 0 (Resolve (js "Sure!" ++ [10%N] ++ js "1. Do X"));
       Resume 0 (Resolve []); Call 2; Resume 1 (Resolve []);
       Resume 1 (Resolve (js "Sure!" ++ [10%N] ++ js "1. Do X"))]))
    = repeat None 6 ++ [Some (js "Sure!" ++ [10%N] ++ js "1. Do X")].
Proof. split; [|split]; vm_compute; [reflexivity|discriminate|reflexivity]. Qed.

(** C7 (no bullets), counterexample.  The raw text's only line has no
    marker, yet extraction is not empty: the marker follows a reasoning
    block on the same line, and the block is removed first. *)
Lemma no_marker_line_after_think :
  no_marker_lines None (js "<think>x</think>1. A") = true /\
  extractBulletPoints (js "<think>x</think>1. A") = [js "A"].
Proof. split; vm_compute; reflexivity. Qed.

(** C7 (no bullets), amended.  If, once reasoning blocks are removed, no
    line of the response starts with digits and a period or with a hyphen
    and a whitespace character, extraction is empty; the flow under the
    bullet strategy then emits one warning, stores and shows the response
    itself ([pre] markup, empty action list), calls [saveChat] and ends
    without an error. *)
Theorem no_marker_falls_back w i id resp x y :
  no_marker_lines None (strip_think resp) = true ->
  nth_error (flows w) i = Some (id, PSend) ->
  option_map extractionStrategy (current_preset w) = Some StrategyBullet ->
  extractBulletPoints resp = [] /\
  nth_error (flows (step w (Resume i (Resolve resp)))) i = Some (id, PEmptyEcho resp) /\
  echoes (step w (Resume i (Resolve resp))) = echoes w ++ [(EchoWarning, MsgNoBullets)] /\
  chat (step (step w (Resume i (Resolve resp))) (Resume i (Resolve x)))
    = upsert id resp (Some StrategyBullet) [] (chat w) /\
  (exists k m,
     nth_error (chat (step (step w (Resume i (Resolve resp))) (Resume i (Resolve x)))) k = Some m /\
     target m = Some id /\ mes m = Pre resp /\ raw_content m = Some resp /\ options m = Some []) /\
  saves (step (step w (Resume i (Resolve resp))) (Resume i (Resolve x))) = S (saves w) /\
  nth_error (flows (step (step (step w (Resume i (Resolve resp))) (Resume i (Resolve x)))
                         (Resume i (Resolve y)))) i = Some (id, Done) /\
  echoes (step (step (step w (Resume i (Resolve resp))) (Resume i (Resolve x))) (Resume i (Resolve y)))
    = echoes w ++ [(EchoWarning, MsgNoBullets)] /\
  errors_logged (step (step (step w (Resume i (Resolve resp))) (Resume i (Resolve x)))
                      (Resume i (Resolve y))) = errors_logged w.
Proof.
  intros Hn Hf Hs.
  assert (Hx : extractBulletPoints resp = []) by (apply extract_no_marker, Hn).
  pose proof (step_resume_pc w i id PSend (Resolve resp) Hf) as H1.
  rewrite resume_send_bullet_empty in H1 by assumption.
  pose proof (step_resume_pc _ _ _ _ (Resolve x) H1) as H2.
  change (snd (resume id (PEmptyEcho resp) (Resolve x) _)) with PSave in H2.
  pose proof (step_resume_pc _ _ _ _ (Resolve y) H2) as H3.
  change (snd (resume id PSave (Resolve y) _)) with Done in H3.
  assert (E1 : step w (Resume i (Resolve resp)) =
               set_flows (set_at i (id, PEmptyEcho resp) (flows w))
                 (echo EchoWarning MsgNoBullets w)).
  { rewrite (step_resume _ _ _ _ _ Hf), resume_send_bullet_empty by assumption. reflexivity. }
  set (w1 := step w (Resume i (Resolve resp))) in *.
  assert (E2 : step w1 (Resume i (Resolve x)) =
               set_flows (set_at i (id, PSave) (flows w1))
                 (store id resp (Some StrategyBullet) [] w1))
    by (rewrite (step_resume _ _ _ _ _ H1); reflexivity).
  set (w2 := step w1 (Resume i (Resolve x))) in *.
  assert (E3 : step w2 (Resume i (Resolve y)) =
               set_flows (set_at i (id, Done) (flows w2)) (cleanup id w2))
    by (rewrite (step_resume _ _ _ _ _ H2); reflexivity).
  assert (C2 : chat w2 = upsert id resp (Some StrategyBullet) [] (chat w))
    by (rewrite E2, E1; reflexivity).
  split; [exact Hx|]. split; [exact H1|].
  split; [rewrite E1; reflexivity|].
  split; [exact C2|].
  split.
  { rewrite C2. destruct (upsert_target id resp (Some StrategyBullet) [] (chat w))
      as (k & m & Hm & Ht & Hmes & Ho & Hr).
    exists k, m. repeat split; auto. }
  split; [rewrite E2, E1; reflexivity|].
  split; [exact H3|].
  split; rewrite E3, E2, E1; reflexivity.
Qed.

Lemma no_marker_falls_back_witness :
  no_marker_lines None (strip_think (js "<think>1. a</think>No list here.")) = true /\
  nth_error (flows (sample_world_at PSend)) 0 = Some (2, PSend) /\
  option_map extractionStrategy (current_preset (sample_world_at PSend)) = Some StrategyBullet /\
  extractBulletPoints (js "<think>1. a</think>No list here.") = [].
Proof.
  assert (Hn : no_marker_lines None (strip_think (js "<think>1. a</think>No list here.")) = true)
    by (vm_compute; reflexivity).
  split; [exact Hn|]. split; [reflexivity|]. split; [reflexivity|].
  exact (proj1 (no_marker_falls_back (sample_world_at PSend) 0 2
                  (js "<think>1. a</think>No list here.") [] [] Hn eq_refl eq_refl)).
Defined.

(** C8 (cleanup).  For a flow past the in-flight guard, resuming it:
    if the flow ends, the target id is no longer in [pendingRequests] and
    the spinner is off; a rejection at any of its [await]s outside the
    catch is logged, echoed as an error and handled by the catch block,
    whose own [await] always ends the flow. *)
Theorem flow_cleanup_always w i id pc r :
  nth_error (flows w) i = Some (id, pc) ->
  passed pc = true ->
  (nth_error (flows (step w (Resume i r))) i = Some (id, Done) ->
   ~ In id (pendingRequests (step w (Resume i r))) /\ spinning (step w (Resume i r)) = false) /\
  (r = Reject -> pc <> PCatchEcho ->
   nth_error (flows (step w (Resume i r))) i = Some (id, PCatchEcho) /\
   errors_logged (step w (Resume i r)) = S (errors_logged w) /\
   echoes (step w (Resume i r)) = echoes w ++ [(EchoError, MsgCaught)]) /\
  (pc = PCatchEcho -> nth_error (flows (step w (Resume i r))) i = Some (id, Done)).
Proof.
  intros Hf Hp. pose proof (step_resume_pc w i id pc r Hf) as Hpc.
  split; [|split].
  - intros Hd. rewrite Hpc in Hd. injection Hd as Hdone.
    rewrite (step_resume _ _ _ _ _ Hf), (resume_done_cleanup id pc r w Hp Hdone).
    split; [apply not_in_set_delete|reflexivity].
  - intros -> Hne. rewrite Hpc, (step_resume _ _ _ _ _ Hf), resume_reject by assumption.
    repeat split.
  - intros ->. rewrite Hpc. destruct r; reflexivity.
Qed.

Lemma flow_cleanup_always_witness :
  nth_error (flows (sample_world_at PSave)) 0 = Some (2, PSave) /\
  passed PSave = true /\
  (nth_error (flows (step (sample_world_at PSave) (Resume 0 (Resolve [])))) 0 = Some (2, Done) ->
   ~ In 2 (pendingRequests (step (sample_world_at PSave) (Resume 0 (Resolve [])))) /\
   spinning (step (sample_world_at PSave) (Resume 0 (Resolve []))) = false).
Proof.
  split; [reflexivity|]. split; [reflexivity|].
  exact (proj1 (flow_cleanup_always (sample_world_at PSave) 0 2 PSave (Resolve [])
                  eq_refl eq_refl)).
Defined.

(** C9 (editing an action).  Committing the edit of the option at position
    [idx] of the annotation [mid] (blur, or Enter without Shift) replaces
    that entry only, leaves every other entry and every other message
    unchanged, and calls [saveChat] once; Shift+Enter keeps the browser's
    default, a line break in the text, and commits nothing. *)
Theorem edit_commit_positional w mid idx newText m opts :
  nth_error (chat w) mid = Some m ->
  options m = Some opts ->
  idx < length opts ->
  saves (on_blur w mid idx newText) = S (saves w) /\
  length (chat (on_blur w mid idx newText)) = length (chat w) /\
  (forall j, j <> mid -> nth_error (chat (on_blur w mid idx newText)) j = nth_error (chat w) j) /\
  (exists opts',
     nth_error (chat (on_blur w mid idx newText)) mid =
       Some (mkMessage (mes m) (target m) (raw_content m) (Some opts')) /\
     length opts' = length opts /\
     nth_error opts' idx = Some (Some newText) /\
     (forall j, j <> idx -> nth_error opts' j = nth_error opts j)) /\
  on_keydown w mid idx (mkKeyEvent KeyEnter false) newText = (newText, on_blur w mid idx newText) /\
  on_keydown w mid idx (mkKeyEvent KeyEnter true) newText = (newText ++ [10%N], w).
Proof.
  intros Hm Ho Hi.
  assert (E : on_blur w mid idx newText =
              set_chat_saves
                (set_at mid (mkMessage (mes m) (target m) (raw_content m)
                               (Some (set_at idx (Some newText) opts))) (chat w))
                (S (saves w)) w).
  { unfold on_blur. rewrite Hm, Ho, js_set_in_range by exact Hi. reflexivity. }
  assert (Hlt : mid < length (chat w)) by (apply nth_error_Some; congruence).
  assert (K1 : on_keydown w mid idx (mkKeyEvent KeyEnter false) newText
               = (newText, on_blur w mid idx newText)) by reflexivity.
  assert (K2 : on_keydown w mid idx (mkKeyEvent KeyEnter true) newText
               = (newText ++ [10%N], w)) by reflexivity.
  refine (conj _ (conj _ (conj _ (conj _ (conj K1 K2))))); rewrite E;
    cbn [chat saves set_chat_saves].
  - reflexivity.
  - apply length_set_at.
  - intros j Hj. apply nth_error_set_at_neq, Hj.
  - exists (set_at idx (Some newText) opts). split; [apply nth_error_set_at_eq, Hlt|].
    split; [apply length_set_at|]. split; [apply nth_error_set_at_eq, Hi|].
    intros j Hj. apply nth_error_set_at_neq, Hj.
Qed.

Lemma edit_commit_positional_witness :
  nth_error (chat (sample_world_at Done)) 3 = Some sample_annotation /\
  options sample_annotation = Some [Some (js "Go north"); Some (js "Wait")] /\
  1 < length [Some (js "Go north"); Some (js "Wait")] /\
  saves (on_blur (sample_world_at Done) 3 1 (js "Run")) = S (saves (sample_world_at Done)).
Proof.
  split; [reflexivity|]. split; [reflexivity|]. split; [simpl; lia|].
  exact (proj1 (edit_commit_positional (sample_world_at Done) 3 1 (js "Run") sample_annotation
                  [Some (js "Go north"); Some (js "Wait")] eq_refl eq_refl
                  (ltac:(simpl; lia)))).
Defined.

(** C10 (round trip).  For non-empty single-line actions without leading
    or trailing whitespace and without reasoning delimiters, extracting from
    the numbered display text ["1. a" newline "2. b" ...] gives the actions
    back. *)
Theorem extract_render_roundtrip actions :
  Forall plain_action actions ->
  extractBulletPoints (render_actions actions) = actions.
Proof.
  intros H. unfold extractBulletPoints, render_actions.
  rewrite strip_think_id by (apply render_no_open; exact H).
  unfold extract_lines. apply extract_render_from; [exact H|reflexivity].
Qed.

Lemma extract_render_roundtrip_witness :
  Forall plain_action [js "Go north"; js "Open the door"; js "Ask 2. questions"] /\
  extractBulletPoints (render_actions [js "Go north"; js "Open the door"; js "Ask 2. questions"])
    = [js "Go north"; js "Open the door"; js "Ask 2. questions"].
Proof.
  assert (H : Forall plain_action [js "Go north"; js "Open the door"; js "Ask 2. questions"]).
  { repeat constructor; unfold plain_action; repeat split;
      try discriminate; try reflexivity; repeat constructor. }
  split; [exact H|]. exact (extract_render_roundtrip _ H).
Defined.

(* ================================================================== *)
(** * Further properties of the code *)

(** ** Objects and lookups *)

Lemma str_eqb_eq a b : str_eqb a b = true <-> a = b.
Proof.
  revert b; induction a as [|x a IH]; intros [|y b]; simpl; split; intros H;
    try congruence; try discriminate.
  - apply andb_prop in H as [H1 H2]. apply N.eqb_eq in H1. apply IH in H2. congruence.
  - injection H as -> ->. rewrite N.eqb_refl. apply IH. reflexivity.
Qed.

Lemma str_eqb_refl a : str_eqb a a = true.
Proof. apply str_eqb_eq. reflexivity. Qed.

Lemma str_eqb_sym a b : str_eqb a b = str_eqb b a.
Proof.
  destruct (str_eqb a b) eqn:E1, (str_eqb b a) eqn:E2; auto.
  - apply str_eqb_eq in E1. subst. rewrite str_eqb_refl in E2. discriminate.
  - apply str_eqb_eq in E2. subst. rewrite str_eqb_refl in E1. discriminate.
Qed.

Lemma pget_obj_set k k' v o :
  pget k (obj_set k' v o) = if str_eqb k' k then v else pget k o.
Proof.
  induction o as [|[k1 v1] o IH]; simpl.
  - destruct (str_eqb k' k); reflexivity.
  - destruct (str_eqb k1 k') eqn:E1.
    + apply str_eqb_eq in E1. subst k1. simpl. destruct (str_eqb k' k); reflexivity.
    + simpl. destruct (str_eqb k1 k) eqn:E2.
      * apply str_eqb_eq in E2. subst k1. rewrite str_eqb_sym, E1. reflexivity.
      * exact IH.
Qed.

Lemma pget_obj_delete k k' o :
  pget k (obj_delete k' o) = if str_eqb k' k then None else pget k o.
Proof.
  unfold obj_delete. induction o as [|[k1 v1] o IH]; simpl.
  - destruct (str_eqb k' k); reflexivity.
  - destruct (str_eqb k1 k') eqn:E1; simpl.
    + apply str_eqb_eq in E1. subst k1. rewrite IH. destruct (str_eqb k' k); reflexivity.
    + destruct (str_eqb k1 k) eqn:E2.
      * apply str_eqb_eq in E2. subst k1. rewrite str_eqb_sym, E1. reflexivity.
      * exact IH.
Qed.

(** ** Chat annotations *)

Lemma count_target_app j a b :
  count_target j (a ++ b) = count_target j a + count_target j b.
Proof. unfold count_target. rewrite filter_app, length_app. reflexivity. Qed.

Lemma count_target_set_at j k x y l :
  nth_error l k = Some y -> target x = target y ->
  count_target j (set_at k x l) = count_target j l.
Proof.
  unfold count_target, target_is. revert k; induction l as [|z l IH]; intros [|k] Hk Ht;
    simpl in *; try discriminate.
  - injection Hk as ->. rewrite Ht. destruct (target y) as [i|]; [destruct (i =? j)|]; reflexivity.
  - destruct (target z) as [i|]; [destruct (i =? j)|]; simpl; rewrite (IH k Hk Ht); reflexivity.
Qed.

Lemma find_target_at_none id k chat :
  find_target_at id k chat = None -> count_target id chat = 0.
Proof.
  unfold count_target, target_is. revert k; induction chat as [|m t IH]; intros k H;
    simpl in *; auto.
  destruct (target m) as [j|]; [destruct (j =? id)|]; try discriminate; eauto.
Qed.

Lemma find_target_some_count id chat k :
  find_target id chat = Some k -> count_target id chat <> 0.
Proof.
  intros H. destruct (find_target_spec _ _ _ H) as (m & Hm & Ht).
  unfold count_target.
  assert (Hin : In m (filter (target_is id) chat)).
  { apply filter_In. split; [eapply nth_error_In; eauto|].
    unfold target_is. rewrite Ht. apply Nat.eqb_refl. }
  destruct (filter (target_is id) chat); [contradiction|discriminate].
Qed.

(** ** Preconditions of the flow *)

Ltac split_matches :=
  repeat match goal with
         | |- context [match ?x with _ => _ end] => destruct x
         end.

Lemma nth_error_snoc {A} (l : list A) x : nth_error (l ++ [x]) (length l) = Some x.
Proof. rewrite nth_error_app2, Nat.sub_diag by lia. reflexivity. Qed.

Lemma step_call w id :
  step w (Call id) = set_flows (flows w ++ [(id, snd (start id w))]) (fst (start id w)).
Proof.
  unfold step. assert (Hf : flows (fst (start id w)) = flows w)
    by (unfold start; split_matches; reflexivity).
  destruct (start id w) as [w' pc]. simpl in *. rewrite Hf. reflexivity.
Qed.

Lemma nth_error_repeat_lt {A} (a : A) n j : j < n -> nth_error (repeat a n) j = Some a.
Proof.
  revert j; induction n as [|n IH]; intros [|j] H; simpl; try lia; auto.
  apply IH. lia.
Qed.

(** ** The trigger handlers *)

Lemma render_seq_last env last msgs :
  msgs <> [] -> fst (render_seq env last msgs) = Z.of_nat (fst (List.last msgs (0%nat, None))).
Proof.
  revert last; induction msgs as [|[mid type] rest IH]; intros last H; [congruence|].
  cbn [render_seq]. destruct (on_message_rendered env last mid type) as [last' click] eqn:E.
  destruct rest as [|x rest'].
  - simpl. unfold on_message_rendered in E. injection E as <- _. reflexivity.
  - specialize (IH last' ltac:(discriminate)).
    destruct (render_seq env last' (x :: rest')) as [final clicks]. simpl in *. exact IH.
Qed.

(* ================================================================== *)
(** * Properties of the code beyond the claims *)

(** Renaming a preset ([onAfterRename], index.ts 148-151): the new name
    holds what the old name held, the old name holds nothing, and every
    other name is untouched.  As the deletion comes last, renaming a preset
    to its own name deletes it. *)
Theorem onAfterRename_lookup previousValue newValue o k :
  pget k (onAfterRename previousValue newValue o) =
  if str_eqb previousValue k then None
  else if str_eqb newValue k then pget previousValue o
  else pget k o.
Proof. unfold onAfterRename. rewrite pget_obj_delete, pget_obj_set. reflexivity. Qed.

(** Creating a preset ([onAfterCreate], index.ts 138-146): other names are
    untouched; the new preset copies the content and strategy of the
    selected one (the defaults when none is selected) and always has an
    impersonation template: the selected one's when it has one, otherwise
    [DEFAULT_IMPERSONATE]. *)
Theorem onAfterCreate_copies promptPreset value o :
  (forall k, str_eqb value k = false -> pget k (onAfterCreate promptPreset value o) = pget k o) /\
  exists p, pget value (onAfterCreate promptPreset value o) = Some p /\
    impersonate p <> None /\
    match pget promptPreset o with
    | Some cur =>
        content p = content cur /\ extractionStrategy p = extractionStrategy cur /\
        (impersonate cur <> None -> impersonate p = impersonate cur) /\
        (impersonate cur = None -> impersonate p = Some DEFAULT_IMPERSONATE)
    | None =>
        content p = DEFAULT_PROMPT /\ extractionStrategy p = StrategyBullet /\
        impersonate p = Some DEFAULT_IMPERSONATE
    end.
Proof.
  unfold onAfterCreate. split.
  - intros k Hk. rewrite pget_obj_set, Hk. reflexivity.
  - eexists. rewrite pget_obj_set, str_eqb_refl. split; [reflexivity|].
    split; [simpl; discriminate|].
    destruct (pget promptPreset o) as [cur|]; simpl; [|auto].
    repeat split; destruct (impersonate cur); intros H; first [reflexivity | contradiction | discriminate].
Qed.

(** The input-area button (index.ts 454-465) regenerates for the same
    message before and after its first annotation is added: on a chat whose
    last message is not an annotation and has none yet, the button targets
    that last message, and once the annotation is appended it still does,
    through the annotation's target. *)
Theorem input_button_stable chat id resp strategy actions :
  chat <> [] -> id = length chat - 1 ->
  (exists m, nth_error chat id = Some m /\ target m = None) ->
  find_target id chat = None ->
  input_target chat = Some id /\
  input_target (upsert id resp strategy actions chat) = Some id.
Proof.
  intros Hne Hid (m & Hm & Ht) Hf. split.
  - unfold input_target. destruct chat as [|c t]; [congruence|].
    rewrite <- Hid, Hm, Ht. reflexivity.
  - unfold upsert. rewrite Hf. unfold input_target.
    destruct chat as [|c t]; [congruence|]. cbn [app].
    replace (length (c :: t ++ [mkMessage
      (formatResponse (match actions with [] => resp | _ => render_actions actions end)
         (match strategy with Some StrategyBullet => Some actions | _ => None end))
      (Some id) (Some (match actions with [] => resp | _ => render_actions actions end))
      (Some (map Some actions))]) - 1) with (length (c :: t)).
    + cbn [length nth_error]. rewrite nth_error_snoc. reflexivity.
    + cbn [length]. rewrite length_app. simpl. lia.
Qed.

(** Storing a response ([generateRoadway], index.ts 418-431) adds an
    annotation only for a target that has none, and never adds or removes
    one for any other message: so a chat keeps at most one annotation per
    target, and the chat grows by one message exactly when the target had
    none. *)
Theorem upsert_counts id resp strategy actions chat j :
  count_target j (upsert id resp strategy actions chat) =
    count_target j chat + (if (j =? id) && (count_target id chat =? 0) then 1 else 0) /\
  length (upsert id resp strategy actions chat) =
    length chat + (if count_target id chat =? 0 then 1 else 0).
Proof.
  unfold upsert. destruct (find_target id chat) as [k|] eqn:Ef.
  - pose proof (find_target_some_count _ _ _ Ef) as Hc. apply Nat.eqb_neq in Hc. rewrite Hc.
    destruct (find_target_spec _ _ _ Ef) as (m & Hm & Ht). rewrite Hm.
    rewrite andb_false_r, !Nat.add_0_r. split.
    + apply (count_target_set_at _ _ _ m); [exact Hm|reflexivity].
    + apply length_set_at.
  - pose proof (find_target_at_none _ _ _ Ef) as Hc. rewrite Hc. simpl (0 =? 0).
    rewrite andb_true_r, count_target_app, length_app. split; [|reflexivity].
    f_equal. unfold count_target, target_is. simpl. rewrite Nat.eqb_sym.
    destruct (j =? id); reflexivity.
Qed.

Lemma input_button_stable_witness :
  input_target (chat sample_world) = Some 5 /\
  input_target (upsert 5 (js "1. Go") (Some StrategyBullet) [js "Go"] (chat sample_world)) = Some 5.
Proof.
  apply (input_button_stable (chat sample_world) 5); [discriminate|reflexivity| |reflexivity].
  exists sample_message. split; reflexivity.
Defined.

(** The guards of [generateRoadway] (index.ts 332-352): with no connection
    profile or no prompt name selected, or a target index past the end of
    the chat, the call never enters the in-flight set, never starts the
    spinner, builds no prompt, sends nothing and changes no message, even
    after its pending [await] resumes; it shows at most one message, an
    error.  These early returns are before the [try], so the [finally] does
    not run either: an id already in flight stays there. *)
Theorem call_precondition_failure w id r :
  profileId (settings w) = [] \/ promptPreset (settings w) = [] \/ length (chat w) <= id ->
  let w2 := step (step w (Call id)) (Resume (length (flows w)) r) in
  nth_error (flows w2) (length (flows w)) = Some (id, Done) /\
  pendingRequests w2 = pendingRequests w /\ spinning w2 = spinning w /\
  prompts_built w2 = prompts_built w /\ requests_sent w2 = requests_sent w /\
  chat w2 = chat w /\
  exists e, echoes w2 = echoes w ++ e /\ length e <= 1 /\ Forall (fun x => fst x = EchoError) e.
Proof.
  intros H. cbv zeta. rewrite step_call.
  assert (Hs : (exists m, start id w = (echo EchoError m w, PPreEcho)) \/ start id w = (w, Done)).
  { unfold start. destruct H as [H|[H|H]].
    - rewrite H. left. eexists. reflexivity.
    - destruct (is_nil (profileId (settings w))); [left; eexists; reflexivity|].
      rewrite H. left. eexists. reflexivity.
    - destruct (is_nil (profileId (settings w))); [left; eexists; reflexivity|].
      destruct (is_nil (promptPreset (settings w))); [left; eexists; reflexivity|].
      apply Nat.leb_le in H. rewrite H. right. reflexivity. }
  destruct Hs as [[m Hs]|Hs]; rewrite Hs; cbn [fst snd].
  - assert (Hn : nth_error (flows (set_flows (flows w ++ [(id, PPreEcho)])
                   (echo EchoError m w))) (length (flows w)) = Some (id, PPreEcho))
      by apply nth_error_snoc.
    rewrite (step_resume _ _ _ _ r Hn). simpl. split.
    + apply nth_error_set_at_eq. rewrite length_app. simpl. lia.
    + repeat split. exists [(EchoError, m)]. repeat split; auto.
  - assert (Hn : nth_error (flows (set_flows (flows w ++ [(id, Done)]) w))
                   (length (flows w)) = Some (id, Done)) by apply nth_error_snoc.
    rewrite (step_resume _ _ _ _ r Hn). simpl. split.
    + apply nth_error_set_at_eq. rewrite length_app. simpl. lia.
    + repeat split. exists []. rewrite app_nil_r. repeat split; auto.
Qed.

Lemma call_precondition_failure_witness :
  nth_error (flows (step (step sample_world (Call 9)) (Resume 0 (Resolve [])))) 0 = Some (9, Done) /\
  pendingRequests (step (step sample_world (Call 9)) (Resume 0 (Resolve []))) = [].
Proof.
  destruct (call_precondition_failure sample_world 9 (Resolve []) ltac:(right; right; simpl; lia))
    as (H1 & H2 & _).
  split; [exact H1|exact H2].
Defined.

(** A prompt preset that is missing when the prompt is built
    ([settings.promptPresets[settings.promptPreset].content], index.ts 364)
    throws inside the [try]: nothing is sent, the error is logged and
    shown, and after that message the [finally] takes the id out of the
    in-flight set and stops the spinner, with no message changed. *)
Theorem missing_preset_aborts w i id prompt r :
  nth_error (flows w) i = Some (id, PBuild) -> current_preset w = None ->
  let w1 := step w (Resume i (Resolve prompt)) in
  let w2 := step w1 (Resume i r) in
  nth_error (flows w1) i = Some (id, PCatchEcho) /\
  errors_logged w1 = S (errors_logged w) /\
  echoes w1 = echoes w ++ [(EchoError, MsgCaught)] /\
  nth_error (flows w2) i = Some (id, Done) /\
  ~ In id (pendingRequests w2) /\ spinning w2 = false /\
  requests_sent w2 = requests_sent w /\ chat w2 = chat w.
Proof.
  intros Hf Hc. cbv zeta.
  assert (Hr : resume id PBuild (Resolve prompt) w = catch w)
    by (unfold resume; rewrite Hc; reflexivity).
  assert (Hi : i < length (flows w)) by (apply nth_error_Some; congruence).
  rewrite (step_resume _ _ _ _ _ Hf), Hr.
  assert (Hn : nth_error (flows (set_flows (set_at i (id, snd (catch w)) (flows w)) (fst (catch w)))) i
               = Some (id, PCatchEcho)) by (apply nth_error_set_at_eq; exact Hi).
  rewrite (step_resume _ _ _ _ r Hn). simpl.
  split; [exact Hn|]. repeat split.
  - apply nth_error_set_at_eq. rewrite length_set_at. exact Hi.
  - apply not_in_set_delete.
Qed.

Lemma missing_preset_aborts_witness :
  let w := mkWorld (mkSettings (js "profile-1") (js "other") (promptPresets sample_settings))
             (chat (sample_world_at PBuild)) [2] true [] 0 [2] [2] 0 [(2, PBuild)] in
  nth_error (flows (step (step w (Resume 0 (Resolve []))) (Resume 0 (Resolve [])))) 0
    = Some (2, Done) /\
  requests_sent (step (step w (Resume 0 (Resolve []))) (Resume 0 (Resolve []))) = [2].
Proof.
  intros w.
  destruct (missing_preset_aborts w 0 2 [] (Resolve []) eq_refl eq_refl)
    as (_ & _ & _ & H4 & _ & _ & H7 & _).
  split; [exact H4|exact H7].
Defined.

(** With a strategy other than bullet extraction (index.ts 392-399), or
    with the preset gone when the response arrives, the response is stored
    as it is: no warning, a preformatted message for the target holding
    the raw response and an empty action list, and the chat saved. *)
Theorem non_bullet_stores_response w i id resp :
  nth_error (flows w) i = Some (id, PSend) ->
  option_map extractionStrategy (current_preset w) <> Some StrategyBullet ->
  let w1 := step w (Resume i (Resolve resp)) in
  nth_error (flows w1) i = Some (id, PSave) /\ echoes w1 = echoes w /\
  saves w1 = S (saves w) /\
  exists k m, nth_error (chat w1) k = Some m /\ target m = Some id /\
    mes m = Pre resp /\ raw_content m = Some resp /\ options m = Some [].
Proof.
  intros Hf Hs. cbv zeta.
  assert (Ha : flow_actions (option_map extractionStrategy (current_preset w)) resp = []).
  { unfold flow_actions. destruct (option_map extractionStrategy (current_preset w)) as [[|]|];
      congruence. }
  assert (Hr := resume_send_store id resp w ltac:(intros H; contradiction)).
  rewrite Ha in Hr.
  pose proof (step_resume_pc w i id PSend (Resolve resp) Hf) as Hp.
  rewrite (step_resume _ _ _ _ _ Hf) in *. rewrite Hr in *. simpl in Hp |- *.
  split; [exact Hp|]. split; [reflexivity|]. split; [reflexivity|].
  destruct (upsert_target id resp (option_map extractionStrategy (current_preset w)) [] (chat w))
    as (k & m & Hk & Ht & Hm & Ho & Hraw).
  exists k, m. repeat split; auto.
  rewrite Hm. destruct (option_map extractionStrategy (current_preset w)) as [[|]|];
    [contradiction|reflexivity|reflexivity].
Qed.

Lemma non_bullet_stores_response_witness :
  let w := mkWorld (mkSettings (js "profile-1") (js "default")
                      [(js "default", mkPreset (js "List.") StrategyNone None)])
             (repeat sample_message 3) [2] true [] 0 [2] [2] 0 [(2, PSend)] in
  chat (step w (Resume 0 (Resolve (js "1. Go"))))
    = repeat sample_message 3 ++
      [mkMessage (Pre (js "1. Go")) (Some 2) (Some (js "1. Go")) (Some [])] /\
  echoes (step w (Resume 0 (Resolve (js "1. Go")))) = [].
Proof.
  intros w.
  destruct (non_bullet_stores_response w 0 2 (js "1. Go") eq_refl ltac:(discriminate))
    as (_ & He & _ & _).
  split; [vm_compute; reflexivity|exact He].
Defined.

(** Committing an edit at a position past the end of the stored action
    list (index.ts 737) grows the list to that position, with holes
    between the old end and the new entry, keeps the old entries, and
    saves the chat; the message's other fields are kept. *)
Theorem on_blur_past_end w roadwayMessageId idx newText m opts :
  nth_error (chat w) roadwayMessageId = Some m -> options m = Some opts ->
  length opts <= idx ->
  saves (on_blur w roadwayMessageId idx newText) = S (saves w) /\
  exists opts',
    nth_error (chat (on_blur w roadwayMessageId idx newText)) roadwayMessageId
      = Some (mkMessage (mes m) (target m) (raw_content m) (Some opts')) /\
    length opts' = S idx /\
    nth_error opts' idx = Some (Some newText) /\
    (forall j, j < length opts -> nth_error opts' j = nth_error opts j) /\
    (forall j, length opts <= j < idx -> nth_error opts' j = Some None).
Proof.
  intros Hm Ho Hl. unfold on_blur. rewrite Hm, Ho. simpl. split; [reflexivity|].
  exists (js_set opts idx newText). split.
  { apply nth_error_set_at_eq. apply nth_error_Some. congruence. }
  unfold js_set. assert (Hb : (idx <? length opts) = false) by (apply Nat.ltb_ge; exact Hl).
  rewrite Hb. split; [|split; [|split]].
  - rewrite !length_app, repeat_length. simpl. lia.
  - rewrite nth_error_app2 by lia. rewrite nth_error_app2 by (rewrite repeat_length; lia).
    rewrite repeat_length. replace (idx - length opts - (idx - length opts)) with 0 by lia.
    reflexivity.
  - intros j Hj. apply nth_error_app1, Hj.
  - intros j Hj. rewrite nth_error_app2 by lia. rewrite nth_error_app1 by (rewrite repeat_length; lia).
    apply nth_error_repeat_lt. lia.
Qed.

Lemma on_blur_past_end_witness :
  saves (on_blur (sample_world_at Done) 3 4 (js "Rest")) = 1 /\
  nth_error (chat (on_blur (sample_world_at Done) 3 4 (js "Rest"))) 3 =
    Some (mkMessage (mes sample_annotation) (Some 2) (raw_content sample_annotation)
      (Some [Some (js "Go north"); Some (js "Wait"); None; None; Some (js "Rest")])).
Proof.
  split; [|vm_compute; reflexivity].
  exact (proj1 (on_blur_past_end (sample_world_at Done) 3 4 (js "Rest") sample_annotation
              [Some (js "Go north"); Some (js "Wait")] eq_refl eq_refl ltac:(simpl; lia))).
Defined.

Lemma render_seq_group_clicks env last msgs :
  selected_group env = true -> snd (render_seq env last msgs) = [].
Proof.
  intros Hg. revert last; induction msgs as [|[mid type] rest IH]; intros last; [reflexivity|].
  cbn [render_seq]. unfold on_message_rendered at 1. rewrite Hg, orb_true_r.
  specialize (IH (Z.of_nat mid)). destruct (render_seq env (Z.of_nat mid) rest). exact IH.
Qed.

(** Auto trigger in a group chat (index.ts 769-797): while the group's
    messages render, no roadway button is clicked; when the group wrapper
    finishes with an allowed generation type, exactly the last rendered
    message's button is clicked. *)
Theorem group_auto_trigger_last env last msgs type :
  autoTrigger env = true -> selected_group env = true -> msgs <> [] ->
  allowed_group_types type = true ->
  snd (render_seq env last msgs) = [] /\
  on_group_wrapper_finished env (fst (render_seq env last msgs)) type
    = Some (fst (List.last msgs (0%nat, None))).
Proof.
  intros Ha Hg Hn Ht. split; [apply render_seq_group_clicks, Hg|].
  rewrite (render_seq_last _ _ _ Hn). unfold on_group_wrapper_finished.
  rewrite Ha, Ht. simpl.
  assert (Hz : (Z.of_nat (fst (List.last msgs (0%nat, None))) =? -1)%Z = false)
    by (apply Z.eqb_neq; lia).
  rewrite Hz, Nat2Z.id. reflexivity.
Qed.

Lemma group_auto_trigger_last_witness :
  snd (render_seq (mkTriggerEnv true true) (-1)%Z [(3, None); (4, Some (js "normal"))]) = [] /\
  on_group_wrapper_finished (mkTriggerEnv true true)
    (fst (render_seq (mkTriggerEnv true true) (-1)%Z [(3, None); (4, Some (js "normal"))]))
    (Some (js "normal")) = Some 4.
Proof.
  exact (group_auto_trigger_last (mkTriggerEnv true true) (-1)%Z
           [(3, None); (4, Some (js "normal"))] (Some (js "normal"))
           eq_refl eq_refl ltac:(discriminate) eq_refl).
Defined.

(** Auto trigger outside a group (index.ts 772-781): every rendered
    message whose type is not ['group_chat'] has its roadway button
    clicked, in rendering order, and no other. *)
Theorem solo_auto_trigger env last msgs :
  autoTrigger env = true -> selected_group env = false ->
  snd (render_seq env last msgs) =
    map fst (filter (fun mt => negb (match snd mt with
                                     | Some s => str_eqb s (js "group_chat")
                                     | None => false
                                     end)) msgs).
Proof.
  intros Ha Hg. revert last; induction msgs as [|[mid type] rest IH]; intros last; [reflexivity|].
  cbn [render_seq]. unfold on_message_rendered at 1. rewrite Ha, Hg, orb_false_r. simpl.
  specialize (IH (Z.of_nat mid)). destruct (render_seq env (Z.of_nat mid) rest) as [f c].
  simpl in IH. rewrite IH.
  destruct type as [s|]; [destruct (str_eqb s _)|]; reflexivity.
Qed.

Lemma solo_auto_trigger_witness :
  snd (render_seq (mkTriggerEnv true false) (-1)%Z
         [(3, None); (4, Some (js "group_chat")); (5, Some (js "normal"))]) = [3; 5].
Proof.
  rewrite (solo_auto_trigger (mkTriggerEnv true false) (-1)%Z
             [(3, None); (4, Some (js "group_chat")); (5, Some (js "normal"))] eq_refl eq_refl).
  vm_compute. reflexivity.
Defined.

(** ** Shape of the extracted actions *)

Lemma drop_while_split f s :
  exists pre, s = pre ++ drop_while f s /\ Forall (fun c => f c = true) pre.
Proof.
  induction s as [|c t IH]; simpl; [exists []; auto|].
  destruct (f c) eqn:E.
  - destruct IH as (pre & H1 & H2). exists (c :: pre). split; [simpl; congruence|constructor; auto].
  - exists []. auto.
Qed.

Lemma Forall_drop_while (P : N -> Prop) f s : Forall P s -> Forall P (drop_while f s).
Proof.
  intros H. destruct (drop_while_split f s) as (pre & E & _).
  rewrite E in H. apply Forall_app in H. tauto.
Qed.

Lemma Forall_trim (P : N -> Prop) s : Forall P s -> Forall P (trim s).
Proof.
  intros H. unfold trim, drop_ws.
  apply Forall_rev, Forall_drop_while, Forall_rev, Forall_drop_while, H.
Qed.

(** [trim] leaves nothing or a text with no whitespace at either end. *)
Lemma trim_shape s :
  trim s = [] \/ (is_ws (hd 0%N (trim s)) = false /\ is_ws (last (trim s) 0%N) = false).
Proof.
  unfold trim, drop_ws.
  remember (drop_while is_ws s) as y eqn:Ey.
  destruct (drop_while_stop is_ws (rev y)) as [Hw|(c & t & Hw & Hc)].
  - left. rewrite Hw. reflexivity.
  - right. destruct (drop_while_split is_ws (rev y)) as (pre & E & _). rewrite Hw in E |- *.
    split.
    + assert (Ey' : y = rev (c :: t) ++ rev pre)
        by (rewrite <- rev_app_distr, <- E, rev_involutive; reflexivity).
      destruct (drop_while_stop is_ws s) as [Hy|(c2 & t2 & Hy & Hc2)]; rewrite <- Ey in Hy;
        rewrite Hy in Ey'.
      * exfalso. apply (f_equal (@length N)) in Ey'. rewrite !length_app in Ey'.
        simpl in Ey'. rewrite length_app in Ey'. simpl in Ey'. lia.
      * destruct (rev (c :: t)) as [|c3 t3] eqn:R.
        -- apply (f_equal (@length N)) in R. simpl in R. rewrite length_app in R. simpl in R. lia.
        -- simpl in Ey' |- *. injection Ey' as <- _. exact Hc2.
    + simpl. rewrite last_last. exact Hc.
Qed.

Lemma marker_end_cases u r :
  marker_end u = Some r ->
  (exists c dpre wpre, is_digit c = true /\ Forall (fun x => is_digit x = true) dpre /\
     Forall (fun x => is_ws x = true) wpre /\ u = c :: dpre ++ 46%N :: wpre ++ r) \/
  (exists wpre, Forall (fun x => is_ws x = true) wpre /\ u = 45%N :: wpre ++ r).
Proof.
  unfold marker_end. destruct u as [|c t]; [discriminate|].
  destruct (is_digit c) eqn:Ec.
  - destruct (drop_while is_digit t) as [|d r0] eqn:Edw; [discriminate|].
    destruct (d =? 46)%N eqn:E46; [|discriminate]. apply N.eqb_eq in E46; subst d.
    destruct r0 as [|x y]; [discriminate|]. intros H. injection H as <-. left.
    destruct (drop_while_split is_digit t) as (dpre & Et & Hd). rewrite Edw in Et.
    destruct (drop_while_split is_ws (x :: y)) as (wpre & Er & Hw).
    exists c, dpre, wpre. split; [exact Ec|]. split; [exact Hd|]. split; [exact Hw|].
    rewrite Et. unfold drop_ws. rewrite <- Er. reflexivity.
  - destruct (c =? 45)%N eqn:E45; [|discriminate]. apply N.eqb_eq in E45; subst c.
    destruct t as [|d t']; [discriminate|]. destruct (is_ws d) eqn:Ed; [|discriminate].
    intros H. injection H as <-. right.
    destruct (drop_while_split is_ws (d :: t')) as (wpre & Er & Hw).
    exists wpre. split; [exact Hw|]. unfold drop_ws. rewrite <- Er. reflexivity.
Qed.

Lemma digit_not_lt c : is_digit c = true -> is_lt c = false.
Proof.
  unfold is_digit, is_lt. intros H. apply andb_prop in H as [H1 H2].
  apply N.leb_le in H1. apply N.leb_le in H2.
  repeat rewrite (proj2 (N.eqb_neq _ _)) by lia. reflexivity.
Qed.

(** A matched line, with its marker removed, is on one line. *)
Lemma marker_line_result u r line :
  marker_end u = Some r -> u = line ++ drop_dot r ->
  Forall (fun c => is_lt c = false) (replace_first fl_none marker_re None line).
Proof.
  intros Hm Hu. rewrite replace_first_marker.
  remember (drop_dot r) as D eqn:ED.
  destruct (drop_while_split (fun c => negb (is_lt c)) r) as (body & Er & Hb).
  change (drop_while (fun c => negb (is_lt c)) r) with (drop_dot r) in Er. rewrite <- ED in Er.
  assert (Hb' : Forall (fun c => is_lt c = false) body)
    by (eapply Forall_impl; [|exact Hb]; intros c Hc; apply negb_true_iff, Hc).
  assert (Hdb : Forall (fun c => is_lt c = false) (drop_ws body)) by (apply Forall_drop_while, Hb').
  destruct (marker_end_cases u r Hm) as [(c & dpre & wpre & Hc & Hd & Hw & Eu)|(wpre & Hw & Eu)].
  - assert (Hl : line = c :: dpre ++ 46%N :: wpre ++ body).
    { rewrite Eu, Er in Hu. apply (app_inv_tail D). rewrite <- Hu.
      cbn [app]. f_equal. rewrite <- app_assoc. f_equal. cbn [app]. f_equal.
      rewrite app_assoc. reflexivity. }
    assert (Hme : marker_end line =
                  match wpre ++ body with [] => None | _ :: _ => Some (drop_ws body) end).
    { rewrite Hl. unfold marker_end. rewrite Hc, drop_while_app_all by exact Hd.
      change (drop_while is_digit (46%N :: wpre ++ body)) with (46%N :: wpre ++ body).
      cbv beta iota. rewrite N.eqb_refl.
      assert (Hx : drop_while is_ws (wpre ++ body) = drop_while is_ws body)
        by (apply drop_while_app_all, Hw).
      unfold drop_ws. destruct (wpre ++ body) eqn:EX; [reflexivity|]. rewrite Hx. reflexivity. }
    rewrite Hme. destruct (wpre ++ body) eqn:EX; [|exact Hdb].
    apply app_eq_nil in EX as [-> ->]. rewrite Hl. constructor; [apply digit_not_lt, Hc|].
    apply Forall_app. split; [|repeat constructor].
    eapply Forall_impl; [|exact Hd]. intros x Hx. apply digit_not_lt, Hx.
  - assert (Hl : line = 45%N :: wpre ++ body).
    { rewrite Eu, Er in Hu. apply (app_inv_tail D). rewrite <- Hu.
      cbn [app]. f_equal. rewrite app_assoc. reflexivity. }
    rewrite Hl. unfold marker_end.
    change (is_digit 45%N) with false. change ((45 =? 45)%N) with true. cbv iota.
    destruct wpre as [|w0 wpre'].
    + cbn [app]. destruct body as [|d b']; [repeat constructor|].
      destruct (is_ws d); [exact Hdb|]. constructor; [reflexivity|exact Hb'].
    + inversion Hw as [|? ? Hw0 Hw']; subst. cbn [app]. rewrite Hw0.
      change (drop_ws (w0 :: wpre' ++ body)) with (drop_ws ((w0 :: wpre') ++ body)).
      unfold drop_ws. rewrite drop_while_app_all by (constructor; auto). exact Hdb.
Qed.

Lemma marker_end_suffix u r : marker_end u = Some r -> exists pre, u = pre ++ r.
Proof.
  intros H. destruct (marker_end_cases u r H) as [(c & dpre & wpre & _ & _ & _ & E)|(wpre & _ & E)].
  - exists (c :: dpre ++ 46%N :: wpre). rewrite E. cbn [app]. rewrite <- app_assoc. reflexivity.
  - exists (45%N :: wpre). rewrite E. reflexivity.
Qed.

(** Every line the global match returns is a marker line cut before its
    line terminator. *)
Lemma match_all_elems p k s line :
  In line (match_all fl_gm line_re p k s) ->
  exists u r, marker_end u = Some r /\ u = line ++ drop_dot r.
Proof.
  revert p k; induction s as [|c t IH]; intros p k Hin.
  - destruct k; [rewrite match_all_nil in Hin|]; simpl in Hin; contradiction.
  - destruct k as [|k]; [|simpl in Hin; eapply IH; exact Hin].
    rewrite match_all_cons0, mt_line_re in Hin.
    destruct (bol fl_gm p); [|eapply IH; exact Hin].
    destruct (marker_end (c :: t)) as [r|] eqn:Em; cbn [option_map] in Hin; [|eapply IH; exact Hin].
    destruct Hin as [Hl|Hin]; [|eapply IH; exact Hin].
    exists (c :: t), r. split; [exact Em|]. subst line.
    destruct (marker_end_suffix _ _ Em) as (pre & Eu).
    destruct (drop_while_split (fun c => negb (is_lt c)) r) as (body & Er & _).
    change (drop_while (fun c => negb (is_lt c)) r) with (drop_dot r) in Er.
    assert (E : c :: t = (pre ++ body) ++ drop_dot r)
      by (rewrite <- app_assoc, <- Er; exact Eu).
    rewrite E. rewrite length_app_sub, firstn_app_exact. reflexivity.
Qed.

Lemma find_close_no_close s : occurs_ci think_close s = false -> find_close s = None.
Proof.
  induction s as [|c t IH]; intros H; [reflexivity|].
  rewrite occurs_ci_cons in H. apply orb_false_iff in H as [H1 H2].
  rewrite find_close_eq, H1. apply IH, H2.
Qed.

Lemma occurs_ci_skipn pat n s : occurs_ci pat s = false -> occurs_ci pat (skipn n s) = false.
Proof.
  revert s; induction n as [|n IH]; intros s H; [exact H|].
  destruct s as [|c t]; [exact H|]. simpl skipn. apply IH.
  rewrite occurs_ci_cons in H. apply orb_false_iff in H. tauto.
Qed.

Lemma replace_think_unclosed p s :
  occurs_ci think_close s = false -> replace_all fl_gi think_re p 0 s = s.
Proof.
  revert p; induction s as [|c t IH]; intros p H; [reflexivity|].
  rewrite replace_all_cons0, mt_think. unfold think_at.
  rewrite (find_close_no_close _ (occurs_ci_skipn _ 7 _ H)).
  rewrite occurs_ci_cons in H. apply orb_false_iff in H as [_ H2].
  destruct (prefix_ci think_open (c :: t)); rewrite IH by exact H2; reflexivity.
Qed.

(** Every action [extractBulletPoints] returns (index.ts 530-537) lies on
    one line, even when a marker alone on its line makes the match run
    into the next line, and has no whitespace at either end; it may be
    empty (a marker followed only by spaces). *)
Theorem extract_actions_single_line text a :
  In a (extractBulletPoints text) ->
  Forall (fun c => is_lt c = false) a /\
  (a = [] \/ (is_ws (hd 0%N a) = false /\ is_ws (last a 0%N) = false)).
Proof.
  unfold extractBulletPoints, extract_lines. intros Hin.
  apply in_map_iff in Hin as (line & <- & Hin).
  destruct (match_all_elems _ _ _ _ Hin) as (u & r & Hm & Hu).
  split; [apply Forall_trim; eapply marker_line_result; eauto|apply trim_shape].
Qed.

Lemma extract_actions_single_line_witness :
  extractBulletPoints (js "1." ++ [10%N] ++ js "Go on" ++ [10%N] ++ js "- ") = [js "Go on"; []] /\
  Forall (fun c => is_lt c = false) (js "Go on") /\ is_ws (last (js "Go on") 0%N) = false.
Proof.
  assert (Hin : In (js "Go on") (extractBulletPoints (js "1." ++ [10%N] ++ js "Go on" ++ [10%N] ++ js "- ")))
    by (vm_compute; left; reflexivity).
  destruct (extract_actions_single_line _ _ Hin) as [H1 [H2|(_ & H3)]]; [discriminate|].
  split; [vm_compute; reflexivity|]. split; [exact H1|exact H3].
Defined.

(** A reasoning block that is never closed (no [</think>] in any letter
    case, as in a cut-off response) is not removed (index.ts 532): the
    text is scanned for actions as it is, including what follows the
    opening [<think>]. *)
Theorem unclosed_think_kept text :
  occurs_ci think_close text = false ->
  strip_think text = text /\ extractBulletPoints text = extract_lines text.
Proof.
  intros H. assert (Hs : strip_think text = text) by (apply replace_think_unclosed, H).
  split; [exact Hs|]. unfold extractBulletPoints. rewrite Hs. reflexivity.
Qed.

Lemma unclosed_think_kept_witness :
  extractBulletPoints (js "<think>" ++ [10%N] ++ js "1. Hide") = [js "Hide"].
Proof.
  rewrite (proj2 (unclosed_think_kept (js "<think>" ++ [10%N] ++ js "1. Hide") eq_refl)).
  vm_compute. reflexivity.
Defined.

(** The impersonate button (index.ts 545-676) starts an impersonation
    only with a non-empty template of the selected preset, and passes the
    action stored at the clicked position (undefined past the end or at a
    hole); the connection-profile path is taken only with a profile id and
    a selected API, and never falls back to the slash command. *)
Theorem impersonate_needs_template presets promptPreset m index prof pid apiSelected o :
  impersonate_click presets promptPreset (Some m) index prof pid apiSelected = Some o ->
  o <> ImpError ->
  exists p tpl, pget promptPreset presets = Some p /\ impersonate p = Some tpl /\ tpl <> [] /\
    ((prof = false /\ o = ImpCommand tpl (option_at (options m) index)) \/
     (prof = true /\ pid <> [] /\ apiSelected = true /\
      o = ImpProfile pid tpl (option_at (options m) index))).
Proof.
  unfold impersonate_click. intros H Hne.
  destruct (pget promptPreset presets) as [p|] eqn:Ep; [|injection H as <-; contradiction].
  destruct (impersonate p) as [[|c tpl]|] eqn:Ei; try (injection H as <-; contradiction).
  exists p, (c :: tpl). split; [reflexivity|]. split; [exact Ei|]. split; [discriminate|].
  destruct prof.
  - destruct pid as [|d pid]; [injection H as <-; contradiction|].
    destruct apiSelected; [|injection H as <-; contradiction].
    injection H as <-. right. repeat split; auto; discriminate.
  - injection H as <-. left. auto.
Qed.

Lemma impersonate_needs_template_witness :
  impersonate_click [(js "default", Some (mkPreset (js "List.") StrategyBullet (Some (js "Act."))))]
    (js "default") (Some sample_annotation) 5 false [] false
  = Some (ImpCommand (js "Act.") None) /\
  exists p, pget (js "default")
              [(js "default", Some (mkPreset (js "List.") StrategyBullet (Some (js "Act."))))]
            = Some p /\ impersonate p = Some (js "Act.").
Proof.
  destruct (impersonate_needs_template
    [(js "default", Some (mkPreset (js "List.") StrategyBullet (Some (js "Act."))))]
    (js "default") sample_annotation 5 false [] false (ImpCommand (js "Act.") None)
    eq_refl ltac:(discriminate)) as (p & tpl & Hp & Hi & _ & [(_ & Ho)|(Hf & _)]);
    [|discriminate].
  injection Ho as <-. split; [reflexivity|]. exists p. split; [exact Hp|exact Hi].
Defined.
